(** * CodeRAG editor extension: throttled indexing, chat relay and inline generation

    The repository holds two VS Code extensions.  The first (TypeScript source
    and its older compiled revision [out/extension.js]) watches for new files,
    relays chat questions to a backend and throttles re-indexing through the
    module-level object [lastIndexed].  The second (compiled JavaScript)
    watches document edits for "generate ..." comments, asks the backend for
    code and keeps the set [processedLines] of lines already dispatched.

    JavaScript strings are sequences of UTF-16 code units; they are modelled
    as [list N].  Asynchronous handlers are modelled as state machines: one
    function per stretch of code between two [await]s, the suspended handler
    being a value that records the program point and the captured locals. *)

From Stdlib Require Import ZArith NArith Lia String Ascii DecimalString.
From stdpp Require Import gmap list.

Local Open Scope N_scope.

(** ** JavaScript strings *)

Abbreviation jsstring := (list N).

(** An ASCII literal as a sequence of code units. *)
Definition lit (s : string) : jsstring := N_of_ascii <$> list_ascii_of_string s.

Definition LF : N := 10.
Definition DQUOTE : N := 34.

(** The characters matched by [\s] and removed by [String.prototype.trim]:
    WhiteSpace and LineTerminator of ECMAScript. *)
Definition is_space (c : N) : bool :=
  ((9 <=? c) && (c <=? 13)) || (c =? 32) || (c =? 160) || (c =? 5760)
  || ((8192 <=? c) && (c <=? 8202)) || (c =? 8232) || (c =? 8233)
  || (c =? 8239) || (c =? 8287) || (c =? 12288) || (c =? 65279).

Definition is_line_terminator (c : N) : bool :=
  (c =? 10) || (c =? 13) || (c =? 8232) || (c =? 8233).

(** The class [.] (no [s] flag): anything but a line terminator. *)
Definition dot (c : N) : bool := negb (is_line_terminator c).

Fixpoint drop_spaces (s : jsstring) : jsstring :=
  match s with
  | c :: s' => if is_space c then drop_spaces s' else s
  | [] => []
  end.

(** [String.prototype.trim]. *)
Definition trim (s : jsstring) : jsstring :=
  rev (drop_spaces (rev (drop_spaces s))).

(** [String.prototype.includes] for a one-character needle. *)
Definition includes (c : N) (s : jsstring) : bool := existsb (N.eqb c) s.

(** [p] is a prefix of [s], characters compared with [eq]. *)
Fixpoint prefix_by (eq : N → N → bool) (p s : jsstring) : bool :=
  match p, s with
  | [], _ => true
  | a :: p', b :: s' => eq a b && prefix_by eq p' s'
  | _ :: _, [] => false
  end.

(** [s.startsWith(p)] and [s.endsWith(p)]. *)
Definition starts_with (p s : jsstring) : bool := prefix_by N.eqb p s.

Definition ends_with (p s : jsstring) : bool :=
  (length p <=? length s)%nat && starts_with p (drop (length s - length p) s).

(** The length of the longest prefix of [s] made of characters in [p]. *)
Fixpoint span (p : N → bool) (s : jsstring) : nat :=
  match s with
  | c :: s' => if p c then S (span p s') else 0%nat
  | [] => 0%nat
  end.

(** Decimal rendering of a number inside a template literal. *)
Definition decimal (n : N) : jsstring :=
  lit (NilEmpty.string_of_uint (N.to_uint n)).

(** ** Regular expressions

    A backtracking matcher for the fragment of ECMAScript regular expressions
    used by the extensions: literals, character classes, [^], [$], sequence,
    alternation, greedy [?], greedy [*] over a class, and one capturing
    group.  The matcher is in continuation-passing style: the continuation
    gets the position reached, the remaining input and the capture. *)

Inductive regex : Type :=
| Eps
| Chr (c : N)
| Cls (p : N → bool)
| Bol
| Eol
| Seq (r1 r2 : regex)
| Alt (r1 r2 : regex)
| Opt (r : regex)
| Star (p : N → bool)
| Group (r : regex).

Fixpoint Lit (s : jsstring) : regex :=
  match s with
  | [] => Eps
  | [c] => Chr c
  | c :: s' => Seq (Chr c) (Lit s')
  end.

(** [c+] is [cc*]. *)
Definition Plus (p : N → bool) : regex := Seq (Cls p) (Star p).

(** Case folding of the [i] flag.  Without the [u] flag the engine compares
    the upper-case images of single code units and never folds a non-ASCII
    unit onto an ASCII one; the literals of the patterns below are ASCII, so
    folding [a-z] is exact. *)
Definition upper (c : N) : N :=
  if (97 <=? c) && (c <=? 122) then c - 32 else c.

Definition chr_eq (icase : bool) (pc x : N) : bool :=
  if icase then upper pc =? upper x else pc =? x.

Section matcher.
Context (icase : bool) {A : Type}.

Definition cont : Type := nat → jsstring → option jsstring → option A.

Fixpoint star (p : N → bool) (i : nat) (s : jsstring)
    (cap : option jsstring) (k : cont) : option A :=
  match s with
  | c :: s' =>
      if p c then
        match star p (S i) s' cap k with
        | Some a => Some a
        | None => k i s cap
        end
      else k i s cap
  | [] => k i s cap
  end.

Fixpoint rmatch (r : regex) (i : nat) (s : jsstring)
    (cap : option jsstring) (k : cont) : option A :=
  match r with
  | Eps => k i s cap
  | Chr c =>
      match s with
      | x :: s' => if chr_eq icase c x then k (S i) s' cap else None
      | [] => None
      end
  | Cls p =>
      match s with
      | x :: s' => if p x then k (S i) s' cap else None
      | [] => None
      end
  | Bol => if (i =? 0)%nat then k i s cap else None
  | Eol => match s with [] => k i s cap | _ :: _ => None end
  | Seq r1 r2 => rmatch r1 i s cap (λ i' s' cap', rmatch r2 i' s' cap' k)
  | Alt r1 r2 =>
      match rmatch r1 i s cap k with
      | Some a => Some a
      | None => rmatch r2 i s cap k
      end
  | Opt r' =>
      match rmatch r' i s cap k with
      | Some a => Some a
      | None => k i s cap
      end
  | Star p => star p i s cap k
  | Group r' =>
      rmatch r' i s cap (λ i' s' _, k i' s' (Some (take (i' - i) s)))
  end.
End matcher.

(** A match: start and end offsets and the text of group 1. *)
Record rmatch_result := { m_start : nat; m_end : nat; m_group : option jsstring }.

(** Leftmost match: try every start offset in turn. *)
Fixpoint search (icase : bool) (r : regex) (i : nat) (s : jsstring)
    : option rmatch_result :=
  match rmatch icase r i s None (λ j _ cap, Some {| m_start := i; m_end := j; m_group := cap |}) with
  | Some m => Some m
  | None =>
      match s with
      | [] => None
      | _ :: s' => search icase r (S i) s'
      end
  end.

Definition exec (icase : bool) (r : regex) (s : jsstring) : option rmatch_result :=
  search icase r 0 s.

(** [s.replace(re, by)] for a regular expression without the [g] flag. *)
Definition replace (icase : bool) (r : regex) (by_ : jsstring) (s : jsstring) : jsstring :=
  match exec icase r s with
  | Some m => take (m_start m) s ++ by_ ++ drop (m_end m) s
  | None => s
  end.

(** Element 1 of [s.match(re)], for a pattern without the [g] flag whose
    group 1 takes part in every match. *)
Definition match1 (icase : bool) (r : regex) (s : jsstring) : option jsstring :=
  match exec icase r s with
  | Some m => Some (default [] (m_group m))
  | None => None
  end.

Definition fence : jsstring := lit "```".

(** [/^```(?:python)?\s*/] *)
Definition FENCE_START : regex :=
  Seq Bol (Seq (Lit fence) (Seq (Opt (Lit (lit "python"))) (Star is_space))).

(** [/```$/] *)
Definition FENCE_END : regex := Seq (Lit fence) Eol.

(** [cleanGeneratedCode]:
    [code.replace(/^```(?:python)?\s*/, '').replace(/```$/, '').trim()] *)
Definition cleanGeneratedCode (code : jsstring) : jsstring :=
  trim (replace false FENCE_END [] (replace false FENCE_START [] code)).

(** The two replacements of [cleanGeneratedCode] written without regular
    expressions: a fence at the very start goes with a [python] tag right
    after it and the white space that follows; a fence at the very end goes. *)
Definition strip_fence_start (s : jsstring) : jsstring :=
  if starts_with fence s then
    let r := drop 3 s in
    drop_spaces (if starts_with (lit "python") r then drop 6 r else r)
  else s.

Definition strip_fence_end (s : jsstring) : jsstring :=
  if ends_with fence s then take (length s - 3) s else s.

(** A string with no blank at either end. *)
Definition trimmed (s : jsstring) : Prop :=
  drop_spaces s = s ∧ drop_spaces (rev s) = rev s.

(** Neither [#] nor [/]. *)
Definition not_marker (c : N) : bool := negb (c =? 35) && negb (c =? 47).

(** A fenced block as a backend writes it: the opening fence with a language
    tag, the code on its own lines, the closing fence. *)
Definition fenced (tag code : jsstring) : jsstring :=
  fence ++ tag ++ [LF] ++ code ++ [LF] ++ fence.

(** [COMMENT_TRIGGER], flag [i]: [(?:#|\/\/)\s*generate\s+] followed by
    the capturing group 1 around [.*]. *)
Definition COMMENT_TRIGGER : regex :=
  Seq (Alt (Chr 35) (Lit (lit "//")))
    (Seq (Star is_space)
       (Seq (Lit (lit "generate"))
          (Seq (Plus is_space) (Group (Star dot))))).

(** ** The backend

    Both extensions reach the backend through [fetch].  A call either rejects
    (transport failure) or resolves to a response whatever its status. *)

(** A value read from the parsed body: a string, or anything else (the field
    is absent, [null], a number, ...).  Calling [.replace] on a non-string
    throws a TypeError whose message [diag] is chosen by the engine. *)
Inductive jsval : Type :=
| VString (s : jsstring)
| VNonString (diag : jsstring).

(** What [await res.json()] settles to. *)
Inductive json_body : Type :=
| NotJson (message : jsstring)   (* rejects: the body is not JSON *)
| JsonNull (diag : jsstring)     (* [null]: reading [data.answer] throws *)
| JsonData (answer : jsval).     (* [data.answer] evaluates to [answer] *)

Record response := { status : N; statusText : jsstring; body : json_body }.

(** [res.ok] *)
Definition ok (res : response) : bool := (200 <=? status res) && (status res <=? 299).

Inductive fetch_outcome : Type :=
| Rejected (message : jsstring)
| Resolved (res : response).

(** The two requests, both [POST] with a JSON body, to
    [http://127.0.0.1:8000/index] and [http://127.0.0.1:8000/chat]. *)
Inductive request : Type :=
| PostIndex (parent_root : jsstring)
| PostChat (question parent_root : jsstring).

(** The message of [new Error(`Server returned ${res.status}: ${res.statusText}`)]. *)
Definition server_error (res : response) : jsstring :=
  lit "Server returned " ++ decimal (status res) ++ lit ": " ++ statusText res.

(** ** Inline generation (the compiled extension with [processedLines]) *)

Module Inline.

Abbreviation doc_id := nat.

(** [change.text] and [change.range.start.line]. *)
Record change := { text : jsstring; line : nat }.

Record event := { document : doc_id; contentChanges : list change }.

(** What the editor shows when a segment of the handler runs: the document of
    the active editor, the text of the lines ([lineAt] throws out of range),
    and the workspace folder of a document. *)
Record host := {
  activeTextEditor : option doc_id;
  lineAt : doc_id → nat → option jsstring;
  workspaceFolder : doc_id → option jsstring
}.

Inductive action : Type :=
| ShowInformationMessage (m : jsstring)
| ShowErrorMessage (m : jsstring)
| Fetch (r : request)
| Preview (lineIndex : nat) (generatedCode : jsstring).

(** The handler suspended at an [await], with the locals it captured. *)
Inductive task : Type :=
| AwaitFetch (doc : doc_id) (lineText : jsstring) (lineIndex : nat) (rest : list change)
| AwaitJson (res : response) (doc : doc_id) (lineText : jsstring) (lineIndex : nat)
    (rest : list change).

Inductive next_step : Type :=
| Finished
| Suspended (t : task)
| Thrown.

(** The effect of one segment: the set afterwards, what was shown and sent,
    and where the handler stands. *)
Record result := {
  processed : gset jsstring;
  actions : list action;
  next : next_step
}.

Definition prepend (a : list action) (r : result) : result :=
  {| processed := processed r; actions := a ++ actions r; next := next r |}.

Definition generating (query : jsstring) : jsstring :=
  [55357; 56481] ++ lit " Generating code for: " ++ [DQUOTE] ++ query ++ [DQUOTE].

Definition generation_failed (message : jsstring) : jsstring :=
  [10060] ++ lit " Code generation failed: " ++ message.

(** [parent_root = workspaceFolder?.uri.fsPath || ''] *)
Definition parent_root_of (h : host) (doc : doc_id) : jsstring :=
  default [] (workspaceFolder h doc).

(** The [for] loop over [event.contentChanges], up to its first [await]. *)
Fixpoint process (h : host) (doc : doc_id) (changes : list change)
    (processedLines : gset jsstring) : result :=
  match changes with
  | [] => {| processed := processedLines; actions := []; next := Finished |}
  | change :: rest =>
      if negb (includes LF (text change)) then process h doc rest processedLines
      else
        let lineIndex := line change in
        match lineAt h doc lineIndex with
        | None => {| processed := processedLines; actions := []; next := Thrown |}
        | Some lineText =>
            if decide (lineText ∈ processedLines) then process h doc rest processedLines
            else
              match match1 true COMMENT_TRIGGER lineText with
              | None => process h doc rest processedLines
              | Some group1 =>
                  let query := trim group1 in
                  match query with
                  | [] => process h doc rest processedLines
                  | _ :: _ =>
                      {| processed := {[lineText]} ∪ processedLines;
                         actions := [ShowInformationMessage (generating query);
                                     Fetch (PostChat query (parent_root_of h doc))];
                         next := Suspended (AwaitFetch doc lineText lineIndex rest) |}
                  end
              end
        end
  end.

(** The handler registered with [onDidChangeTextDocument]. *)
Definition onDidChangeTextDocument (h : host) (ev : event)
    (processedLines : gset jsstring) : result :=
  match activeTextEditor h with
  | None => {| processed := processedLines; actions := []; next := Finished |}
  | Some doc =>
      if decide (doc = document ev) then process h doc (contentChanges ev) processedLines
      else {| processed := processedLines; actions := []; next := Finished |}
  end.

(** The [catch] block, followed by the rest of the loop. *)
Definition catch (h : host) (doc : doc_id) (lineText : jsstring) (rest : list change)
    (message : jsstring) (processedLines : gset jsstring) : result :=
  prepend [ShowErrorMessage (generation_failed message)]
    (process h doc rest (processedLines ∖ {[lineText]})).

(** After [await fetch(...)]. *)
Definition fetch_settled (h : host) (doc : doc_id) (lineText : jsstring) (lineIndex : nat)
    (rest : list change) (o : fetch_outcome) (processedLines : gset jsstring) : result :=
  match o with
  | Rejected message => catch h doc lineText rest message processedLines
  | Resolved res =>
      if ok res then
        {| processed := processedLines; actions := [];
           next := Suspended (AwaitJson res doc lineText lineIndex rest) |}
      else catch h doc lineText rest (server_error res) processedLines
  end.

(** After [await res.json()]: clean the answer, open the preview, go on with
    the loop. *)
Definition json_settled (h : host) (res : response) (doc : doc_id) (lineText : jsstring)
    (lineIndex : nat) (rest : list change) (processedLines : gset jsstring) : result :=
  match body res with
  | NotJson message => catch h doc lineText rest message processedLines
  | JsonNull diag => catch h doc lineText rest diag processedLines
  | JsonData (VNonString diag) => catch h doc lineText rest diag processedLines
  | JsonData (VString answer) =>
      prepend [Preview lineIndex (cleanGeneratedCode answer)]
        (process h doc rest processedLines)
  end.

(** *** The event loop

    Handlers interleave at their [await]s only.  The system is the shared set,
    the suspended handlers and the log of what was shown and sent. *)
Record sys := {
  processedLines : gset jsstring;
  pool : list task;
  log : list action
}.

Definition init : sys := {| processedLines := ∅; pool := []; log := [] |}.

Definition resumed (n : next_step) : list task :=
  match n with
  | Suspended t => [t]
  | Finished | Thrown => []
  end.

Definition commit (s : sys) (others : list task) (r : result) : sys :=
  {| processedLines := processed r;
     pool := others ++ resumed (next r);
     log := log s ++ actions r |}.

Inductive step (s : sys) : sys → Prop :=
| step_change (h : host) (ev : event) :
    step s (commit s (pool s) (onDidChangeTextDocument h ev (processedLines s)))
| step_fetch (h : host) (o : fetch_outcome) l1 l2 doc lineText lineIndex rest :
    pool s = l1 ++ AwaitFetch doc lineText lineIndex rest :: l2 →
    step s (commit s (l1 ++ l2)
              (fetch_settled h doc lineText lineIndex rest o (processedLines s)))
| step_json (h : host) l1 l2 res doc lineText lineIndex rest :
    pool s = l1 ++ AwaitJson res doc lineText lineIndex rest :: l2 →
    step s (commit s (l1 ++ l2)
              (json_settled h res doc lineText lineIndex rest (processedLines s))).

Definition reachable (s : sys) : Prop := rtc step init s.

(** The line whose request a suspended handler is waiting for. *)
Definition held (t : task) : jsstring :=
  match t with
  | AwaitFetch _ lineText _ _ => lineText
  | AwaitJson _ _ lineText _ _ => lineText
  end.

Definition chat_calls (a : list action) : list (jsstring * jsstring) :=
  omap (λ x, match x with Fetch (PostChat q root) => Some (q, root) | _ => None end) a.

(** How a call fails: it is rejected, or answered with a status outside 2xx;
    [failure_message] is the message of the error then thrown. *)
Definition fetch_failed (o : fetch_outcome) : Prop :=
  match o with
  | Rejected _ => True
  | Resolved res => ok res = false
  end.

Definition failure_message (o : fetch_outcome) : jsstring :=
  match o with
  | Rejected message => message
  | Resolved res => server_error res
  end.

(** A line that fires the trigger with question [query]: the pattern matches
    and the trimmed description is not empty. *)
Definition triggers (lineText query : jsstring) : Prop :=
  ∃ group1, match1 true COMMENT_TRIGGER lineText = Some group1
            ∧ trim group1 = query ∧ query ≠ [].

(** What a segment that goes on from the set [pl] may do to the set: nothing,
    or add the line it now waits for, which was not in [pl] and fires the
    trigger. *)
Definition extends (pl : gset jsstring) (r : result) : Prop :=
  match next r with
  | Suspended t =>
      (held t ∉ pl) ∧ processed r = {[held t]} ∪ pl ∧ (∃ q, triggers (held t) q)
  | Finished | Thrown => processed r = pl
  end.

(** The invariant of the event loop: the suspended handlers wait for distinct
    lines, each of them in the set and each firing the trigger. *)
Definition wf (s : sys) : Prop :=
  NoDup (held <$> pool s) ∧
  ∀ t, t ∈ pool s → held t ∈ processedLines s ∧ (∃ q, triggers (held t) q).

(** A line whose request has succeeded: it is in the set and no suspended
    handler waits for it. *)
Definition settled_line (lineText : jsstring) (s : sys) : Prop :=
  lineText ∈ processedLines s ∧ ∀ t, t ∈ pool s → held t ≠ lineText.

(** *** Sample inputs *)

Definition line0 : jsstring := lit "# generate a function that adds two numbers".

(** The active editor shows document 0, whose lines all read [line0], in the
    folder [/proj]. *)
Definition host0 : host :=
  {| activeTextEditor := Some 0%nat;
     lineAt := λ _ _, Some line0;
     workspaceFolder := λ _, Some (lit "/proj") |}.

(** Enter pressed at the end of line 0. *)
Definition event0 : event :=
  {| document := 0%nat; contentChanges := [{| text := [LF]; line := 0%nat |}] |}.

Definition code0 : response :=
  {| status := 200; statusText := lit "OK";
     body := JsonData (VString (fenced (lit "python") (lit "def add(a,b): return a+b"))) |}.

Definition unavailable0 : response :=
  {| status := 503; statusText := lit "Service Unavailable"; body := NotJson (lit "x") |}.

(** The system after the edit, and after the response has arrived. *)
Definition sys1 : sys :=
  commit init (pool init) (onDidChangeTextDocument host0 event0 (processedLines init)).

Definition sys2 : sys :=
  commit sys1 [] (fetch_settled host0 0%nat line0 0%nat [] (Resolved code0) (processedLines sys1)).

End Inline.

(** ** File watcher and chat panel (the TypeScript extension) *)

Module Chat.

Local Open Scope Z_scope.

(** [active.document]: [isUntitled] and [uri]. *)
Record document := { isUntitled : bool; uri : jsstring }.

(** What the editor answers when a segment runs.  [api_throws] stands for a
    host call throwing inside the detection block; [getWorkspaceFolder]
    gives the [uri.fsPath] of the folder, [workspaceFolders] the [fsPath]s of
    the open folders. *)
Record host := {
  api_throws : bool;
  activeTextEditor : option document;
  getWorkspaceFolder : jsstring → option jsstring;
  workspaceFolders : option (list jsstring)
}.

(** Inbound [{id, question}]. *)
Record message := { id : Z; question : jsstring }.

Inductive progress : Type := Indexing | Thinking.

(** Outbound [{id, status}] and [{id, answer}]. *)
Inductive panel_message : Type :=
| Status (id : Z) (status : progress)
| Answer (id : Z) (answer : jsval).

Inductive action : Type :=
| Fetch (r : request)
| PostMessage (panel : nat) (m : panel_message).

(** A handler suspended at an [await]. *)
Inductive task : Type :=
| WatcherIndex (fsPath : jsstring)
| ChatIndex (panel : nat) (msg : message) (parent : jsstring) (now : Z)
| ChatFetch (panel : nat) (msg : message)
| ChatJson (panel : nat) (msg : message) (res : response).

Record result := {
  indexed : gmap jsstring Z;
  actions : list action;
  next : option task
}.

Definition no_workspace : jsstring :=
  [9888; 65039]%N ++ lit " No file or workspace detected.".

Definition no_detection : jsstring :=
  [9888; 65039]%N ++ lit " Could not detect active file or workspace.".

Definition error_text (message : jsstring) : jsstring :=
  [10060]%N ++ lit " Error: " ++ message.

(** The module-level object [lastIndexed] is used as a map from the [fsPath]
    of a workspace folder to a time in milliseconds; it is modelled as a
    [gmap].  (The keys are paths of folders, never names of properties that
    an object inherits.)  Times are values of [Date.now()], integers.

    [lastIndexed[parent] || 0] and the test [now - last > 60000]: *)
Definition shouldReindex (lastIndexed : gmap jsstring Z) (parent : jsstring) (now : Z) : bool :=
  let last := default 0 (lastIndexed !! parent) in
  now - last >? 60000.

(** [lastIndexed[root] = now] *)
Definition markIndexed (root : jsstring) (now : Z) (lastIndexed : gmap jsstring Z)
    : gmap jsstring Z :=
  <[root := now]> lastIndexed.

(** *** [watcher.onDidCreate] *)

Definition onDidCreate (h : host) (uri : jsstring) (lastIndexed : gmap jsstring Z) : result :=
  match getWorkspaceFolder h uri with
  | None => {| indexed := lastIndexed; actions := []; next := None |}
  | Some fsPath =>
      {| indexed := lastIndexed;
         actions := [Fetch (PostIndex fsPath)];
         next := Some (WatcherIndex fsPath) |}
  end.

(** After [await fetch(.../index)] in the watcher; [now] is [Date.now()] at
    that moment.  The response is not inspected. *)
Definition watcher_settled (now : Z) (fsPath : jsstring) (o : fetch_outcome)
    (lastIndexed : gmap jsstring Z) : result :=
  match o with
  | Resolved _ =>
      {| indexed := markIndexed fsPath now lastIndexed; actions := []; next := None |}
  | Rejected _ => {| indexed := lastIndexed; actions := []; next := None |}
  end.

(** *** [panel.webview.onDidReceiveMessage] *)

(** The detection block: [parent] when no host call throws. *)
Definition detect_parent (h : host) : jsstring :=
  match activeTextEditor h with
  | Some doc =>
      if negb (isUntitled doc) then default [] (getWorkspaceFolder h (uri doc))
      else
        match workspaceFolders h with
        | Some (first :: _) => first
        | _ => []
        end
  | None =>
      match workspaceFolders h with
      | Some (first :: _) => first
      | _ => []
      end
  end.

(** The second [try] block up to its first [await]. *)
Definition submit (now : Z) (panel : nat) (msg : message) (parent : jsstring)
    (lastIndexed : gmap jsstring Z) : result :=
  if shouldReindex lastIndexed parent now then
    {| indexed := lastIndexed;
       actions := [PostMessage panel (Status (id msg) Indexing); Fetch (PostIndex parent)];
       next := Some (ChatIndex panel msg parent now) |}
  else
    {| indexed := lastIndexed;
       actions := [PostMessage panel (Status (id msg) Thinking);
                   Fetch (PostChat (question msg) parent)];
       next := Some (ChatFetch panel msg) |}.

Definition onDidReceiveMessage (h : host) (now : Z) (panel : nat) (msg : message)
    (lastIndexed : gmap jsstring Z) : result :=
  match question msg with
  | [] => {| indexed := lastIndexed; actions := []; next := None |}
  | _ :: _ =>
      if api_throws h then
        {| indexed := lastIndexed;
           actions := [PostMessage panel (Answer (id msg) (VString no_detection))];
           next := None |}
      else
        match detect_parent h with
        | [] =>
            {| indexed := lastIndexed;
               actions := [PostMessage panel (Answer (id msg) (VString no_workspace))];
               next := None |}
        | parent => submit now panel msg parent lastIndexed
        end
  end.

(** The [catch] of the second [try] block. *)
Definition catch (panel : nat) (msg : message) (message : jsstring)
    (lastIndexed : gmap jsstring Z) : result :=
  {| indexed := lastIndexed;
     actions := [PostMessage panel (Answer (id msg) (VString (error_text message)))];
     next := None |}.

(** After [await fetch(.../index)] in the chat handler: the response is not
    inspected, the time stored is the [now] read before the call. *)
Definition index_settled (panel : nat) (msg : message) (parent : jsstring) (now : Z)
    (o : fetch_outcome) (lastIndexed : gmap jsstring Z) : result :=
  match o with
  | Rejected message => catch panel msg message lastIndexed
  | Resolved _ =>
      {| indexed := markIndexed parent now lastIndexed;
         actions := [PostMessage panel (Status (id msg) Thinking);
                     Fetch (PostChat (question msg) parent)];
         next := Some (ChatFetch panel msg) |}
  end.

(** After [await fetch(.../chat)]. *)
Definition chat_settled (panel : nat) (msg : message) (o : fetch_outcome)
    (lastIndexed : gmap jsstring Z) : result :=
  match o with
  | Rejected message => catch panel msg message lastIndexed
  | Resolved res =>
      if ok res then
        {| indexed := lastIndexed; actions := []; next := Some (ChatJson panel msg res) |}
      else catch panel msg (server_error res) lastIndexed
  end.

(** After [await res.json()]. *)
Definition json_settled (panel : nat) (msg : message) (res : response)
    (lastIndexed : gmap jsstring Z) : result :=
  match body res with
  | NotJson message => catch panel msg message lastIndexed
  | JsonNull diag => catch panel msg diag lastIndexed
  | JsonData answer =>
      {| indexed := lastIndexed;
         actions := [PostMessage panel (Answer (id msg) answer)];
         next := None |}
  end.

(** *** One submission from start to end

    [settle] resumes a suspended handler: the index call settles as [oi], the
    chat call as [oc], the body as the response says; [clock] is [Date.now()]
    for the watcher. *)
Definition settle (clock : Z) (oi oc : fetch_outcome) (t : task)
    (lastIndexed : gmap jsstring Z) : result :=
  match t with
  | WatcherIndex fsPath => watcher_settled clock fsPath oi lastIndexed
  | ChatIndex panel msg parent now => index_settled panel msg parent now oi lastIndexed
  | ChatFetch panel msg => chat_settled panel msg oc lastIndexed
  | ChatJson panel msg res => json_settled panel msg res lastIndexed
  end.

Definition and_then (r : result) (f : task → gmap jsstring Z → result) : result :=
  match next r with
  | None => r
  | Some t =>
      let r' := f t (indexed r) in
      {| indexed := indexed r'; actions := actions r ++ actions r'; next := next r' |}
  end.

(** The handler of one question run to its end with no other handler in
    between: at most three awaits (index, chat, body). *)
Definition submission (h : host) (now : Z) (panel : nat) (msg : message)
    (oi oc : fetch_outcome) (lastIndexed : gmap jsstring Z) : result :=
  and_then
    (and_then
       (and_then (onDidReceiveMessage h now panel msg lastIndexed) (settle now oi oc))
       (settle now oi oc))
    (settle now oi oc).

(** The new-file handler run to its end; the call settles at time [now]. *)
Definition creation (h : host) (now : Z) (uri : jsstring) (oi : fetch_outcome)
    (lastIndexed : gmap jsstring Z) : result :=
  and_then (onDidCreate h uri lastIndexed) (settle now oi oi).

(** What a list of actions holds. *)
Definition index_calls (a : list action) : list jsstring :=
  omap (λ x, match x with Fetch (PostIndex root) => Some root | _ => None end) a.

Definition chat_calls (a : list action) : list (jsstring * jsstring) :=
  omap (λ x, match x with Fetch (PostChat q root) => Some (q, root) | _ => None end) a.

Definition answers (a : list action) : list (nat * Z * jsval) :=
  omap (λ x, match x with
             | PostMessage panel (Answer i v) => Some (panel, i, v)
             | _ => None
             end) a.

(** What the handler posts as its final answer once the chat call has settled
    as [oc]: the handlers [chat_settled] and [json_settled] in one function. *)
Definition posted_answer (oc : fetch_outcome) : jsval :=
  match oc with
  | Rejected message => VString (error_text message)
  | Resolved res =>
      if ok res then
        match body res with
        | JsonData answer => answer
        | NotJson message => VString (error_text message)
        | JsonNull diag => VString (error_text diag)
        end
      else VString (error_text (server_error res))
  end.

(** *** Sample inputs *)

Definition root0 : jsstring := lit "/proj".
Definition msg0 : message := {| id := 7; question := lit "why" |}.

(** One open folder, no active editor. *)
Definition folder_host : host :=
  {| api_throws := false; activeTextEditor := None;
     getWorkspaceFolder := λ _, Some root0; workspaceFolders := Some [root0] |}.

(** A file watched from outside the open folder. *)
Definition outside_host : host :=
  {| api_throws := false; activeTextEditor := None;
     getWorkspaceFolder := λ _, None; workspaceFolders := Some [root0] |}.


Definition answer0 : response :=
  {| status := 200; statusText := lit "OK"; body := JsonData (VString (lit "42")) |}.
Definition failure0 : response :=
  {| status := 500; statusText := lit "Internal Server Error"; body := NotJson (lit "x") |}.

End Chat.

(** ** The older compiled revision of the watcher and the chat panel

    [out/extension.js] has no [lastIndexed]: the chat handler indexes before
    every question and posts no progress message. *)

Module Legacy.

Import Chat.

Inductive task : Type :=
| WatcherIndex
| ChatIndex (panel : nat) (msg : message) (parent : jsstring)
| ChatFetch (panel : nat) (msg : message)
| ChatJson (panel : nat) (msg : message) (res : response).

Record result := { actions : list action; next : option task }.

Definition onDidCreate (h : host) (uri : jsstring) : result :=
  match getWorkspaceFolder h uri with
  | None => {| actions := []; next := None |}
  | Some fsPath => {| actions := [Fetch (PostIndex fsPath)]; next := Some WatcherIndex |}
  end.

Definition watcher_settled (o : fetch_outcome) : result :=
  {| actions := []; next := None |}.

Definition onDidReceiveMessage (h : host) (panel : nat) (msg : message) : result :=
  match question msg with
  | [] => {| actions := []; next := None |}
  | _ :: _ =>
      if api_throws h then
        {| actions := [PostMessage panel (Answer (id msg) (VString no_detection))];
           next := None |}
      else
        match detect_parent h with
        | [] =>
            {| actions := [PostMessage panel (Answer (id msg) (VString no_workspace))];
               next := None |}
        | parent =>
            {| actions := [Fetch (PostIndex parent)];
               next := Some (ChatIndex panel msg parent) |}
        end
  end.

Definition catch (panel : nat) (msg : message) (message : jsstring) : result :=
  {| actions := [PostMessage panel (Answer (id msg) (VString (error_text message)))];
     next := None |}.

Definition index_settled (panel : nat) (msg : message) (parent : jsstring)
    (o : fetch_outcome) : result :=
  match o with
  | Rejected message => catch panel msg message
  | Resolved _ =>
      {| actions := [Fetch (PostChat (question msg) parent)];
         next := Some (ChatFetch panel msg) |}
  end.

Definition chat_settled (panel : nat) (msg : message) (o : fetch_outcome) : result :=
  match o with
  | Rejected message => catch panel msg message
  | Resolved res =>
      if ok res then {| actions := []; next := Some (ChatJson panel msg res) |}
      else catch panel msg (server_error res)
  end.

Definition json_settled (panel : nat) (msg : message) (res : response) : result :=
  match body res with
  | NotJson message => catch panel msg message
  | JsonNull diag => catch panel msg diag
  | JsonData answer =>
      {| actions := [PostMessage panel (Answer (id msg) answer)]; next := None |}
  end.

Definition settle (oi oc : fetch_outcome) (t : task) : result :=
  match t with
  | WatcherIndex => watcher_settled oi
  | ChatIndex panel msg parent => index_settled panel msg parent oi
  | ChatFetch panel msg => chat_settled panel msg oc
  | ChatJson panel msg res => json_settled panel msg res
  end.

Definition and_then (r : result) (f : task → result) : result :=
  match next r with
  | None => r
  | Some t => let r' := f t in {| actions := actions r ++ actions r'; next := next r' |}
  end.

Definition submission (h : host) (panel : nat) (msg : message)
    (oi oc : fetch_outcome) : result :=
  and_then
    (and_then (and_then (onDidReceiveMessage h panel msg) (settle oi oc)) (settle oi oc))
    (settle oi oc).

Definition creation (h : host) (uri : jsstring) (oi : fetch_outcome) : result :=
  and_then (onDidCreate h uri) (settle oi oi).

End Legacy.

(** ** The rest of the extensions

    What the handlers above leave out: the escaping done for the preview
    panel, the script of the chat panel that sends the questions, and the
    event loop of the watcher and the chat handlers. *)

(** [s.replace(re, by)] for a regular expression with the [g] flag: every
    match from left to right, without overlap; after an empty match the scan
    moves one character on.  [skip] counts the characters of the current
    match still to be passed over. *)
Fixpoint replace_all_from (icase : bool) (r : regex) (by_ : jsstring)
    (i skip : nat) (s : jsstring) : jsstring :=
  match skip with
  | S k =>
      match s with
      | [] => []
      | _ :: s' => replace_all_from icase r by_ (S i) k s'
      end
  | O =>
      match rmatch icase r i s None
              (λ j _ cap, Some {| m_start := i; m_end := j; m_group := cap |}) with
      | Some m =>
          match s with
          | [] => by_
          | c :: s' =>
              if (m_end m =? i)%nat
              then by_ ++ c :: replace_all_from icase r by_ (S i) 0 s'
              else by_ ++ replace_all_from icase r by_ (S i) (m_end m - i - 1) s'
          end
      | None =>
          match s with
          | [] => []
          | c :: s' => c :: replace_all_from icase r by_ (S i) 0 s'
          end
      end
  end.

Definition replace_all (icase : bool) (r : regex) (by_ : jsstring) (s : jsstring)
    : jsstring :=
  replace_all_from icase r by_ 0 0 s.

(** The expression interpolated by [getCodeWebviewContent] between
    [<pre><code>] and [</code></pre>]:
    [code.replace(/</g, '&lt;').replace(/>/g, '&gt;')]. *)
Definition escaped_code (code : jsstring) : jsstring :=
  replace_all false (Chr 62) (lit "&gt;") (replace_all false (Chr 60) (lit "&lt;") code).

(** The same escaping, character by character. *)
Definition escape_char (c : N) : jsstring :=
  if c =? 60 then lit "&lt;" else if c =? 62 then lit "&gt;" else [c].

(** *** The script of the chat panel *)

Module Webview.

Import Chat.

(** The text area [#q] and the calls [appendMessage(question, id)] made so
    far, in document order. *)
Record view := { textarea : jsstring; appended : list (jsstring * Z) }.

(** The click handler of [#ask]; [now] is [Date.now()].  The result is the
    view afterwards and the message posted to the extension, if any. *)
Definition ask (now : Z) (v : view) : view * option message :=
  match trim (textarea v) with
  | [] => (v, None)
  | q =>
      ({| textarea := []; appended := appended v ++ [(q, now)] |},
       Some {| id := now; question := q |})
  end.

End Webview.

(** *** The event loop of the watcher and the chat handlers

    New-file events, questions and settling calls interleave at the
    [await]s.  The state is the map [lastIndexed], the suspended handlers and
    the log of what was sent and posted. *)

Module ChatLoop.

Import Chat.

Record sys := {
  lastIndexed : gmap jsstring Z;
  pool : list task;
  log : list action
}.

Definition init : sys := {| lastIndexed := ∅; pool := []; log := [] |}.

Definition commit (s : sys) (others : list task) (r : result) : sys :=
  {| lastIndexed := indexed r;
     pool := others ++ option_list (next r);
     log := log s ++ actions r |}.

(** One step at clock value [now]. *)
Inductive step (now : Z) (s : sys) : sys → Prop :=
| step_create (h : host) (uri : jsstring) :
    step now s (commit s (pool s) (onDidCreate h uri (lastIndexed s)))
| step_message (h : host) (panel : nat) (msg : message) :
    step now s (commit s (pool s) (onDidReceiveMessage h now panel msg (lastIndexed s)))
| step_settle (oi oc : fetch_outcome) (l1 l2 : list task) (t : task) :
    pool s = l1 ++ t :: l2 →
    step now s (commit s (l1 ++ l2) (settle now oi oc t (lastIndexed s))).

(** The states reached from [s] when every clock value read satisfies [P]. *)
Definition runs (P : Z → Prop) : relation sys :=
  rtc (λ s s', ∃ now, P now ∧ step now s s').

(** The root a suspended handler has an index call in flight for. *)
Definition indexing (t : task) : option jsstring :=
  match t with
  | WatcherIndex root => Some root
  | ChatIndex _ _ root _ => Some root
  | ChatFetch _ _ | ChatJson _ _ _ => None
  end.

(** Every chat call of the log comes after an index call for the same root;
    [seen] holds the roots indexed before the log starts. *)
Fixpoint indexed_first (seen : gset jsstring) (l : list action) : bool :=
  match l with
  | [] => true
  | Fetch (PostIndex root) :: l' => indexed_first ({[root]} ∪ seen) l'
  | Fetch (PostChat _ root) :: l' => bool_decide (root ∈ seen) && indexed_first seen l'
  | PostMessage _ _ :: l' => indexed_first seen l'
  end.

(** The actions that are not progress messages, and those that are not index
    calls. *)
Definition without_status (a : list action) : list action :=
  omap (λ x, match x with PostMessage _ (Status _ _) => None | _ => Some x end) a.

Definition without_index (a : list action) : list action :=
  omap (λ x, match x with Fetch (PostIndex _) => None | _ => Some x end) a.

(** What the invariant says of a state: the log is in order, and the roots
    of the map and of the index calls in flight all have an index call in
    the log. *)
Definition in_order (s : sys) : Prop :=
  indexed_first ∅ (log s) = true ∧
  (∀ root, is_Some (lastIndexed s !! root) → root ∈ index_calls (log s)) ∧
  (∀ t root, t ∈ pool s → indexing t = Some root → root ∈ index_calls (log s)).

(** What one segment adds, given the roots [R] indexed so far. *)
Definition adds_in_order (R : list jsstring) (m : gmap jsstring Z) (r : result) : Prop :=
  indexed_first (list_to_set R) (actions r) = true ∧
  (∀ root, is_Some (indexed r !! root) →
           is_Some (m !! root) ∨ root ∈ R) ∧
  (∀ t root, next r = Some t → indexing t = Some root →
             root ∈ index_calls (actions r)).

(** *** Sample states: a question has arrived; its index call has been
    answered with status 500. *)

Definition loop1 : sys :=
  commit init (pool init) (onDidReceiveMessage folder_host 70000 0 msg0 (lastIndexed init)).

Definition loop2 : sys :=
  commit loop1 []
    (settle 70500 (Resolved failure0) (Resolved answer0) (ChatIndex 0 msg0 root0 70000)
       (lastIndexed loop1)).

(** The steps that start a handler: a new file is created or a question
    arrives.  No call settles. *)
Inductive arrives (now : Z) (s : sys) : sys → Prop :=
| arrives_create (h : host) (uri : jsstring) :
    arrives now s (commit s (pool s) (onDidCreate h uri (lastIndexed s)))
| arrives_message (h : host) (panel : nat) (msg : message) :
    arrives now s (commit s (pool s) (onDidReceiveMessage h now panel msg (lastIndexed s))).

(** The states reached from [s] while nothing settles. *)
Definition arrivals : relation sys := rtc (λ s s', ∃ now, arrives now s s').

(** *** Sample states: the root was marked an hour ago; a question arrives;
    a file is created while the index call of the question is in flight. *)

Definition loop0 : sys :=
  {| lastIndexed := markIndexed root0 1700000000000 ∅; pool := []; log := [] |}.

Definition loop_a : sys :=
  commit loop0 (pool loop0)
    (onDidReceiveMessage folder_host 1700003600000 0 msg0 (lastIndexed loop0)).

Definition loop_b : sys :=
  commit loop_a (pool loop_a) (onDidCreate folder_host (lit "/proj/a.ts") (lastIndexed loop_a)).

End ChatLoop.

(** *** What a segment of the inline handler sends *)

Module InlineChecks.
Import Inline.

(** What one segment of the handler may send: at most one chat call, whose
    question is not empty, has no blank at either end and is the description
    of the line the handler then waits for. *)
Definition sends_one (r : result) : Prop :=
  (length (chat_calls (actions r)) ≤ 1)%nat ∧
  ∀ q root, (q, root) ∈ chat_calls (actions r) →
    q ≠ [] ∧ trimmed q ∧
    ∃ doc lineText lineIndex rest,
      next r = Suspended (AwaitFetch doc lineText lineIndex rest) ∧
      triggers lineText q.

(** A line that asks for nothing: it holds neither [#] nor [/], or after the
    marker and the word [generate] it has blanks only. *)
Definition silent_line (lineText : jsstring) : Prop :=
  forallb not_marker lineText = true ∨
  ∃ before marker ws word ws1 blanks,
    lineText = before ++ marker ++ ws ++ word ++ ws1 ++ blanks ∧
    forallb not_marker before = true ∧
    (marker = lit "#" ∨ marker = lit "//") ∧
    forallb is_space ws = true ∧
    prefix_by (chr_eq true) (lit "generate") word = true ∧ length word = 8%nat ∧
    ws1 ≠ [] ∧ forallb is_space ws1 = true ∧
    forallb is_space blanks = true ∧ forallb dot blanks = true.

Definition quiet (pl : gset jsstring) : result :=
  {| processed := pl; actions := []; next := Finished |}.

(** Resume a suspended handler: its call settles as [o], the body as the
    response says. *)
Definition then_settle (h : host) (o : fetch_outcome) (r : result) : result :=
  match next r with
  | Suspended (AwaitFetch doc lineText lineIndex rest) =>
      prepend (actions r) (fetch_settled h doc lineText lineIndex rest o (processed r))
  | Suspended (AwaitJson res doc lineText lineIndex rest) =>
      prepend (actions r) (json_settled h res doc lineText lineIndex rest (processed r))
  | Finished | Thrown => r
  end.

(** The handler of an event with one request, run to its end with no other
    handler in between: two awaits (the call, the body). *)
Definition generation (h : host) (ev : event) (o : fetch_outcome)
    (pl : gset jsstring) : result :=
  then_settle h o (then_settle h o (onDidChangeTextDocument h ev pl)).

(** An action other than a call to [/index]. *)
Definition not_index (a : action) : Prop := ∀ root, a ≠ Fetch (PostIndex root).

End InlineChecks.

(** ** The wording of the specification

    Predicates written after the words of the specification and of the
    language standard rather than after the code; the properties below state
    the claims with them and relate them to the definitions above. *)

(** WhiteSpace and LineTerminator of ECMAScript, by code unit: what the
    specification calls whitespace. *)
Definition white_space (c : N) : Prop :=
  9 ≤ c ≤ 13 ∨ c = 32 ∨ c = 160 ∨ c = 5760 ∨ 8192 ≤ c ≤ 8202 ∨ c = 8232
  ∨ c = 8233 ∨ c = 8239 ∨ c = 8287 ∨ c = 12288 ∨ c = 65279.


(** A text with surrounding whitespace trimmed: no whitespace at its first
    and at its last character. *)
Definition no_blank_at_ends (s : jsstring) : Prop :=
  ∀ c : N, head s = Some c ∨ last s = Some c → ¬ white_space c.


Module InlineTerms.
Import Inline.

(** A line that is free again in state [s]: it is out of the set, no
    suspended handler waits for it, and a newline edit on a line with that
    text sends a chat call. *)
Definition released (L : jsstring) (s : sys) : Prop :=
  (L ∉ processedLines s) ∧ (∀ t, t ∈ pool s → held t ≠ L) ∧
  ∃ query, query ≠ [] ∧
    ∀ (h : host) (ev : event) (c : change) (rest : list change),
      activeTextEditor h = Some (document ev) →
      contentChanges ev = c :: rest →
      includes LF (text c) = true →
      lineAt h (document ev) (line c) = Some L →
      chat_calls (actions (onDidChangeTextDocument h ev (processedLines s))) =
        [(query, parent_root_of h (document ev))].

(** *** Sample inputs *)



(** A response with status 200 whose JSON body has no [answer] field:
    [cleanGeneratedCode(undefined)] throws a TypeError. *)
Definition no_answer0 : response :=
  {| status := 200; statusText := lit "OK";
     body := JsonData
               (VNonString (lit "Cannot read properties of undefined (reading 'replace')")) |}.

(** The system after the request of [event0] has been answered with
    [no_answer0], and after the body has been read. *)
Definition sys2n : sys :=
  commit sys1 []
    (fetch_settled host0 0%nat line0 0%nat [] (Resolved no_answer0) (processedLines sys1)).

Definition sys3n : sys :=
  commit sys2n [] (json_settled host0 no_answer0 0%nat line0 0%nat [] (processedLines sys2n)).

End InlineTerms.

Module ChatTerms.
Import Chat.

(** The final answer owed once the chat call has settled as [oc], in the
    words of the specification: the [answer] field of the body when the
    status is 2xx, a text built from the error when the call is rejected or
    the status is outside 2xx (and when the body of a 2xx response cannot be
    read). *)
Definition owed_answer (oc : fetch_outcome) (a : jsval) : Prop :=
  match oc with
  | Rejected message => a = VString (error_text message)
  | Resolved res =>
      (status res < 200 ∨ 299 < status res →
         a = VString (error_text (lit "Server returned " ++ decimal (status res)
                                  ++ lit ": " ++ statusText res))) ∧
      (200 ≤ status res ≤ 299 →
         match body res with
         | JsonData answer => a = answer
         | NotJson message => a = VString (error_text message)
         | JsonNull diag => a = VString (error_text diag)
         end)
  end.

End ChatTerms.

(** * Properties *)

(** ** The matcher on the patterns of the extensions *)

Lemma rmatch_Lit {A} (icase : bool) (l : jsstring) (i : nat) (s : jsstring)
    (cap : option jsstring) (k : @cont A) :
  rmatch icase (Lit l) i s cap k =
    if prefix_by (chr_eq icase) l s then k (i + length l)%nat (drop (length l) s) cap
    else None.
Proof.
  revert i s. induction l as [|c l IH]; intros i s.
  - simpl. by rewrite Nat.add_0_r.
  - destruct l as [|c' l'].
    + simpl. destruct s as [|x s']; [done|].
      rewrite andb_true_r, Nat.add_1_r. by destruct (chr_eq icase c x).
    + change (Lit (c :: c' :: l')) with (Seq (Chr c) (Lit (c' :: l'))).
      cbn [rmatch]. destruct s as [|x s']; [done|].
      cbn [prefix_by]. destruct (chr_eq icase c x); [|done].
      rewrite IH. cbn [andb length drop].
      by replace (S i + S (length l'))%nat with (i + S (S (length l')))%nat by lia.
Qed.

Lemma star_greedy {A} (p : N → bool) (s : jsstring) (i : nat)
    (cap : option jsstring) (k : @cont A) (a : A) :
  k (i + span p s)%nat (drop (span p s) s) cap = Some a →
  star p i s cap k = Some a.
Proof.
  revert i. induction s as [|c s IH]; intros i; simpl.
  - by rewrite Nat.add_0_r.
  - destruct (p c); simpl.
    + intros H. rewrite (IH (S i)); [done|].
      by replace (S i + span p s)%nat with (i + S (span p s))%nat by lia.
    + by rewrite Nat.add_0_r.
Qed.

Lemma drop_span_spaces (s : jsstring) : drop (span is_space s) s = drop_spaces s.
Proof. induction s as [|c s IH]; simpl; [done|]. by destruct (is_space c). Qed.

Lemma drop_spaces_app (ws s : jsstring) :
  forallb is_space ws = true → drop_spaces (ws ++ s) = drop_spaces s.
Proof.
  induction ws as [|c ws IH]; simpl; [done|].
  intros [Hc Hws]%andb_true_iff. rewrite Hc. by apply IH.
Qed.

Lemma drop_spaces_idemp (s : jsstring) : drop_spaces (drop_spaces s) = drop_spaces s.
Proof.
  induction s as [|c s IH]; simpl; [done|].
  destruct (is_space c) eqn:Hc; [done|]. simpl. by rewrite Hc.
Qed.


Lemma span_all (p : N → bool) (s : jsstring) :
  forallb p s = true → span p s = length s.
Proof.
  induction s as [|c s IH]; simpl; [done|].
  intros [Hc Hs]%andb_true_iff. rewrite Hc. by rewrite IH.
Qed.

Lemma search_Bol (r : regex) (i : nat) (s : jsstring) :
  search false (Seq Bol r) (S i) s = None.
Proof. revert i. induction s as [|c s IH]; intros i; simpl; [done|]. apply IH. Qed.

Lemma star_total (p : N → bool) (s : jsstring) (i i0 : nat) (cap : option jsstring) :
  star p i s cap (λ j _ c, Some {| m_start := i0; m_end := j; m_group := c |}) =
    Some {| m_start := i0; m_end := i + span p s; m_group := cap |}.
Proof. by apply star_greedy. Qed.

(** The first replacement of [cleanGeneratedCode]. *)
Lemma replace_FENCE_START (s : jsstring) :
  replace false FENCE_START [] s = strip_fence_start s.
Proof.
  unfold replace, exec, strip_fence_start, FENCE_START.
  assert (Hs : search false
                 (Seq Bol (Seq (Lit fence) (Seq (Opt (Lit (lit "python"))) (Star is_space))))
                 0 s
     = if starts_with fence s then
         let r := drop 3 s in
         if starts_with (lit "python") r
         then Some {| m_start := 0; m_end := 9 + span is_space (drop 6 r); m_group := None |}
         else Some {| m_start := 0; m_end := 3 + span is_space r; m_group := None |}
       else None).
  { assert (Hhere : rmatch false
                 (Seq Bol (Seq (Lit fence) (Seq (Opt (Lit (lit "python"))) (Star is_space))))
                 0 s None (λ j _ cap, Some {| m_start := 0; m_end := j; m_group := cap |})
     = if starts_with fence s then
         let r := drop 3 s in
         if starts_with (lit "python") r
         then Some {| m_start := 0; m_end := 9 + span is_space (drop 6 r); m_group := None |}
         else Some {| m_start := 0; m_end := 3 + span is_space r; m_group := None |}
       else None).
    { cbn [rmatch Nat.eqb]. rewrite rmatch_Lit.
      change (prefix_by (chr_eq false) fence s) with (starts_with fence s).
      destruct (starts_with fence s); [|done].
      cbn [rmatch]. rewrite rmatch_Lit.
      change (prefix_by (chr_eq false) (lit "python") (drop (length fence) s))
        with (starts_with (lit "python") (drop 3 s)).
      cbn zeta. destruct (starts_with (lit "python") (drop 3 s)).
      - cbn [star]. by rewrite star_total.
      - by rewrite star_total. }
    destruct s as [|c s']; cbn [search]; rewrite Hhere.
    - done.
    - rewrite search_Bol.
      destruct (starts_with fence (c :: s')); [|done].
      cbn zeta. by destruct (starts_with (lit "python") (drop 3 (c :: s'))). }
  rewrite Hs. destruct (starts_with fence s); [|done].
  cbn zeta. destruct (starts_with (lit "python") (drop 3 s)); cbn [m_start m_end take app].
  - rewrite <- drop_span_spaces, !drop_drop. f_equal.
  - rewrite <- drop_span_spaces, !drop_drop. f_equal.
Qed.

Lemma starts_with_length (p s : jsstring) (eq : N → N → bool) :
  prefix_by eq p s = true → (length p ≤ length s)%nat.
Proof.
  revert s. induction p as [|a p IH]; intros [|b s]; simpl; try done; try lia.
  intros [_ H]%andb_true_iff. apply IH in H. lia.
Qed.

(** [/```$/] matches at an offset exactly when what is left is the fence. *)
Lemma rmatch_FENCE_END (i i0 : nat) (s : jsstring) :
  rmatch false FENCE_END i s None
    (λ j _ cap, Some {| m_start := i0; m_end := j; m_group := cap |}) =
  if starts_with fence s && (length s =? 3)%nat
  then Some {| m_start := i0; m_end := i + 3; m_group := None |}
  else None.
Proof.
  unfold FENCE_END. cbn [rmatch]. rewrite rmatch_Lit.
  change (prefix_by (chr_eq false) fence s) with (starts_with fence s).
  destruct (starts_with fence s) eqn:Hf; [|done].
  apply starts_with_length in Hf. change (length fence) with 3%nat in *.
  destruct (drop 3 s) as [|x t] eqn:Hd; simpl.
  - apply (f_equal length) in Hd. rewrite length_drop in Hd. simpl in Hd.
    replace (length s) with 3%nat by lia. done.
  - apply (f_equal length) in Hd. rewrite length_drop in Hd. simpl in Hd.
    destruct (Nat.eqb_spec (length s) 3); [lia|done].
Qed.

Lemma search_FENCE_END (i : nat) (s : jsstring) :
  search false FENCE_END i s =
  if ends_with fence s
  then Some {| m_start := i + (length s - 3); m_end := i + length s; m_group := None |}
  else None.
Proof.
  revert i. induction s as [|c s IH]; intros i.
  - done.
  - cbn [search]. rewrite rmatch_FENCE_END, IH.
    unfold ends_with. change (length fence) with 3%nat.
    destruct (starts_with fence (c :: s) && (length (c :: s) =? 3)%nat) eqn:Hh.
    + apply andb_true_iff in Hh as [Hf Hl%Nat.eqb_eq]. rewrite Hl.
      simpl in Hl. simpl. rewrite Hf. simpl. do 2 f_equal; lia.
    + destruct (Nat.leb_spec 3 (length s)) as [Hge|Hlt].
      * replace (3 <=? length (c :: s))%nat with true
          by (symmetry; apply Nat.leb_le; simpl; lia).
        replace (length (c :: s) - 3)%nat with (S (length s - 3)) by (simpl; lia).
        cbn [drop andb]. destruct (starts_with fence (drop (length s - 3) s)); [|done].
        do 2 f_equal; simpl; lia.
      * cbn [andb]. destruct (Nat.leb_spec 3 (length (c :: s))) as [Hge'|Hlt']; [|done].
        assert (Hl : length (c :: s) = 3%nat) by (simpl in *; lia).
        rewrite Hl, Nat.sub_diag in *. cbn [drop andb].
        simpl in Hh. rewrite andb_true_r in Hh.
        by rewrite Hh.
Qed.

(** The second replacement of [cleanGeneratedCode]. *)
Lemma replace_FENCE_END (s : jsstring) :
  replace false FENCE_END [] s = strip_fence_end s.
Proof.
  unfold replace, exec, strip_fence_end. rewrite search_FENCE_END.
  destruct (ends_with fence s); [|done].
  cbn [m_start m_end Nat.add]. rewrite drop_all. by rewrite !app_nil_r.
Qed.

Lemma cleanGeneratedCode_direct (code : jsstring) :
  cleanGeneratedCode code = trim (strip_fence_end (strip_fence_start code)).
Proof. unfold cleanGeneratedCode. by rewrite replace_FENCE_START, replace_FENCE_END. Qed.

(** *** The trigger pattern *)

Lemma upper_fixes_below_letters (a c : N) :
  a < 65 → (upper a =? upper c) = (a =? c).
Proof.
  intros Ha. unfold upper.
  destruct (N.leb_spec 97 a); [lia|]. cbn [andb].
  destruct (N.leb_spec 97 c); destruct (N.leb_spec c 122); cbn [andb];
    destruct (N.eqb_spec a c); destruct (N.eqb_spec a (c - 32)); try done; lia.
Qed.

Lemma upper_G_not_space (c : N) : (upper 103 =? upper c) = true → is_space c = false.
Proof.
  change (upper 103) with 71. unfold upper.
  destruct (N.leb_spec 97 c); destruct (N.leb_spec c 122); cbn [andb];
    intros Hc%N.eqb_eq.
  - assert (c = 103) as -> by lia. done.
  - by subst c.
  - by subst c.
  - by subst c.
Qed.

Lemma rmatch_trigger_no_marker {A} (c : N) (s : jsstring) (i : nat)
    (cap : option jsstring) (k : @cont A) :
  not_marker c = true → rmatch true COMMENT_TRIGGER i (c :: s) cap k = None.
Proof.
  intros [H1 H2]%andb_true_iff. apply negb_true_iff in H1, H2.
  unfold COMMENT_TRIGGER. set (tail := Seq (Star is_space) _).
  cbn [rmatch]. rewrite rmatch_Lit.
  change (lit "//") with [47; 47]. cbn [prefix_by]. unfold chr_eq.
  rewrite !upper_fixes_below_letters by lia.
  rewrite (N.eqb_sym 35 c), (N.eqb_sym 47 c). by rewrite H1, H2.
Qed.

Lemma search_trigger_skip (before s : jsstring) (i : nat) :
  forallb not_marker before = true →
  search true COMMENT_TRIGGER i (before ++ s) =
  search true COMMENT_TRIGGER (i + length before) s.
Proof.
  revert i. induction before as [|c before IH]; intros i.
  - intros _. simpl. by rewrite Nat.add_0_r.
  - intros [Hc Hb]%andb_true_iff. cbn [app search].
    rewrite rmatch_trigger_no_marker by done. rewrite IH by done.
    f_equal. simpl. lia.
Qed.

Lemma span_app_stop (p : N → bool) (pre s : jsstring) :
  forallb p pre = true → span p s = 0%nat → span p (pre ++ s) = length pre.
Proof.
  induction pre as [|c pre IH]; simpl; [done|].
  intros [Hc Hp]%andb_true_iff Hs. rewrite Hc. by rewrite IH.
Qed.

Lemma prefix_by_app (eq : N → N → bool) (p s t : jsstring) :
  prefix_by eq p s = true → prefix_by eq p (s ++ t) = true.
Proof.
  revert s. induction p as [|a p IH]; intros [|b s]; simpl; try done.
  intros [-> H]%andb_true_iff. by apply IH.
Qed.

Lemma forallb_drop_spaces (p : N → bool) (s : jsstring) :
  forallb p s = true → forallb p (drop_spaces s) = true.
Proof.
  induction s as [|c s IH]; simpl; [done|].
  intros [Hc Hs]%andb_true_iff. destruct (is_space c); [by apply IH|].
  simpl. by rewrite Hc, Hs.
Qed.

(** The shape of a trigger line: text free of [#] and [/], the marker,
    optional blanks, the word [generate] in any case, at least one blank and
    the description. *)
Lemma match1_trigger_shape (before marker ws word ws1 desc : jsstring) :
  forallb not_marker before = true →
  marker = lit "#" ∨ marker = lit "//" →
  forallb is_space ws = true →
  prefix_by (chr_eq true) (lit "generate") word = true → length word = 8%nat →
  ws1 ≠ [] → forallb is_space ws1 = true →
  forallb dot desc = true →
  match1 true COMMENT_TRIGGER (before ++ marker ++ ws ++ word ++ ws1 ++ desc) =
    Some (drop_spaces desc).
Proof.
  intros Hb Hm Hws Hword Hlen Hne Hws1 Hdesc.
  destruct ws1 as [|w1 ws1']; [done|]. simpl in Hws1.
  apply andb_true_iff in Hws1 as [Hw1 Hws1'].
  unfold match1, exec. rewrite search_trigger_skip by done.
  set (i := (0 + length before)%nat). clearbody i.
  assert (Hcore : ∀ j : nat, ∃ e : nat,
    rmatch true
      (Seq (Star is_space)
         (Seq (Lit (lit "generate")) (Seq (Plus is_space) (Group (Star dot)))))
      j (ws ++ word ++ (w1 :: ws1') ++ desc) None
      (λ j' _ cap, Some {| m_start := i; m_end := j'; m_group := cap |}) =
    Some {| m_start := i; m_end := e; m_group := Some (drop_spaces desc) |}).
  { intros j. eexists. cbn [rmatch]. apply star_greedy.
    assert (Hhead : span is_space (word ++ (w1 :: ws1') ++ desc) = 0%nat).
    { destruct word as [|w word']; [done|]. simpl in Hword.
      apply andb_true_iff in Hword as [Hw _].
      simpl. unfold chr_eq in Hw. by rewrite (upper_G_not_space w Hw). }
    rewrite span_app_stop by done. rewrite drop_app_length.
    rewrite rmatch_Lit, (prefix_by_app _ _ _ _ Hword).
    change (length (lit "generate")) with 8%nat. rewrite <- Hlen, drop_app_length.
    unfold Plus. cbn [rmatch].
    cbn [app]. rewrite Hw1.
    apply star_greedy. rewrite drop_span_spaces, drop_spaces_app by done.
    apply star_greedy.
    rewrite (span_all dot) by (by apply forallb_drop_spaces).
    rewrite Nat.add_comm, Nat.add_sub, firstn_all. reflexivity. }
  unfold COMMENT_TRIGGER. set (tail := Seq (Star is_space) _) in *.
  destruct Hm as [-> | ->].
  - destruct (Hcore (S i)) as [e He].
    change (lit "#") with [35]. cbn [app search rmatch] in He |- *.
    change (chr_eq true 35 35) with true. cbv iota. by rewrite He.
  - destruct (Hcore (S (S i))) as [e He].
    change (lit "//") with [47; 47]. cbn [app search] in He |- *. cbn [rmatch].
    change (chr_eq true 35 47) with false. cbv iota.
    rewrite rmatch_Lit. cbn [prefix_by].
    change (chr_eq true 47 47) with true. cbn [andb length drop].
    rewrite drop_0. replace (i + 2)%nat with (S (S i)) by lia. by rewrite He.
Qed.


(** ** Cleaning the generated code *)

Lemma ends_with_app (s : jsstring) : ends_with fence (s ++ fence) = true.
Proof.
  unfold ends_with. rewrite length_app. change (length fence) with 3%nat.
  replace (length s + 3 - 3)%nat with (length s) by lia.
  rewrite drop_app_length. apply andb_true_iff. split; [|done].
  apply Nat.leb_le. lia.
Qed.

Lemma strip_fence_end_app (s : jsstring) : strip_fence_end (s ++ fence) = s.
Proof.
  unfold strip_fence_end. rewrite ends_with_app, length_app.
  change (length fence) with 3%nat.
  replace (length s + 3 - 3)%nat with (length s) by lia.
  by rewrite take_app_length.
Qed.

Lemma drop_spaces_trimmed_app (s t : jsstring) :
  drop_spaces s = s → s ≠ [] → drop_spaces (s ++ t) = s ++ t.
Proof.
  destruct s as [|c s]; [done|]. simpl. intros H _.
  destruct (is_space c); [|done].
  exfalso. assert (Hl : (length (drop_spaces s) ≤ length s)%nat).
  { clear. induction s as [|x s IH]; simpl; [done|]. destruct (is_space x); simpl; lia. }
  rewrite H in Hl. simpl in Hl. lia.
Qed.

(** *** The wording of the specification and the code *)

Lemma is_space_white_space (c : N) : is_space c = true ↔ white_space c.
Proof.
  unfold is_space, white_space.
  rewrite !orb_true_iff, !andb_true_iff, !N.leb_le, !N.eqb_eq. tauto.
Qed.

Lemma is_space_not_white_space (c : N) : is_space c = false ↔ ¬ white_space c.
Proof. rewrite <- is_space_white_space. by destruct (is_space c). Qed.


Lemma ok_2xx (res : response) : ok res = true ↔ 200 ≤ status res ≤ 299.
Proof. unfold ok. rewrite andb_true_iff, !N.leb_le. done. Qed.

Lemma ok_not_2xx (res : response) : ok res = false ↔ status res < 200 ∨ 299 < status res.
Proof. unfold ok. rewrite andb_false_iff, !N.leb_gt. done. Qed.

Lemma forallb_Forall_iff (p : N → bool) (P : N → Prop) (s : jsstring) :
  (∀ c, p c = true ↔ P c) → Forall P s → forallb p s = true.
Proof.
  intros Hp H. induction H as [|c s Hc _ IH]; simpl; [done|].
  apply andb_true_iff. split; [by apply Hp|done].
Qed.

Lemma blanks_forallb (ws : jsstring) : Forall white_space ws → forallb is_space ws = true.
Proof. apply forallb_Forall_iff, is_space_white_space. Qed.



Lemma drop_spaces_fixed (s : jsstring) :
  (∀ c, head s = Some c → ¬ white_space c) → drop_spaces s = s.
Proof.
  destruct s as [|c s]; [done|]. intros H. simpl.
  by rewrite (proj2 (is_space_not_white_space c) (H c eq_refl)).
Qed.

Lemma no_blank_trimmed (s : jsstring) : no_blank_at_ends s → trimmed s.
Proof.
  intros H. split.
  - apply drop_spaces_fixed. intros c Hc. apply H. by left.
  - apply drop_spaces_fixed. intros c Hc. apply H. right.
    rewrite rev_alt in Hc. by rewrite <- (head_reverse s).
Qed.

(** [trim] removes the blanks after a text that has none at its ends. *)
Lemma trim_blank_ends (code ws : jsstring) :
  no_blank_at_ends code → Forall white_space ws → trim (code ++ ws) = code.
Proof.
  intros Hc Hws. destruct (no_blank_trimmed code Hc) as [Hl Hr].
  unfold trim. destruct code as [|c code].
  - simpl. rewrite <- (app_nil_r ws), drop_spaces_app by by apply blanks_forallb.
    done.
  - rewrite drop_spaces_trimmed_app by done.
    rewrite rev_app_distr, drop_spaces_app.
    + rewrite Hr. apply rev_involutive.
    + apply blanks_forallb. by apply Forall_rev.
Qed.

(** Spell the ASCII literals of the goal out as code units. *)
Ltac spell :=
  repeat match goal with
         | |- context [lit ?s] =>
             let l := eval vm_compute in (lit s) in change (lit s) with l
         end;
  cbn [app].

(** Prove a property of every character of a literal with [tac]. *)
Ltac each_char tac :=
  spell; repeat (apply Forall_cons_2; [tac|]); apply Forall_nil_2.

Lemma starts_with_app (p t : jsstring) : starts_with p (p ++ t) = true.
Proof.
  unfold starts_with. induction p as [|a p IH]; simpl; [done|].
  by rewrite N.eqb_refl.
Qed.

(** A tag that does not begin with [p] is not taken for it, whatever follows
    the line break after the tag. *)
Lemma other_tag_is_not_python (p tag rest : jsstring) :
  Forall (λ c : N, c ≠ LF) p →
  (∀ t, tag ≠ p ++ t) →
  starts_with p (tag ++ [LF] ++ rest) = false.
Proof.
  unfold starts_with. revert tag. induction p as [|a p IH]; intros tag Hp Hne.
  - by destruct (Hne tag).
  - apply Forall_cons in Hp as [Ha Hp].
    destruct tag as [|b tag]; simpl.
    + destruct (N.eqb_spec a LF); [done|done].
    + destruct (N.eqb_spec a b) as [->|]; [|done]. simpl.
      apply IH; [done|]. intros t ->. by apply (Hne t).
Qed.

Lemma drop_fence (s : jsstring) : drop 3 (fence ++ s) = s.
Proof. reflexivity. Qed.

Lemma drop_python (s : jsstring) : drop 6 (lit "python" ++ s) = s.
Proof. reflexivity. Qed.

(** A block fenced with the tag [python] or with no tag is cleaned to its
    code. *)
Lemma clean_fenced_block (tag ws1 code ws2 : jsstring) :
  tag = lit "python" ∨ tag = [] →
  ws1 ≠ [] → Forall white_space ws1 → Forall white_space ws2 →
  no_blank_at_ends code →
  cleanGeneratedCode (fence ++ tag ++ ws1 ++ code ++ ws2 ++ fence) = code.
Proof.
  intros Htag Hne Hws1 Hws2 Hcode. rewrite cleanGeneratedCode_direct.
  assert (Hs : strip_fence_start (fence ++ tag ++ ws1 ++ code ++ ws2 ++ fence) =
               drop_spaces (code ++ ws2 ++ fence)).
  { unfold strip_fence_start. rewrite starts_with_app, drop_fence. cbn zeta.
    destruct Htag as [-> | ->].
    - rewrite starts_with_app, drop_python. by apply drop_spaces_app, blanks_forallb.
    - destruct ws1 as [|w ws1]; [done|]. apply Forall_cons in Hws1 as [Hw Hws1].
      assert (Hp : starts_with (lit "python") ([] ++ (w :: ws1) ++ code ++ ws2 ++ fence)
                   = false).
      { unfold starts_with. change (lit "python") with [112; 121; 116; 104; 111; 110].
        cbn [app prefix_by]. destruct (N.eqb_spec 112 w) as [<-|]; [|done].
        exfalso. unfold white_space in Hw. lia. }
      rewrite Hp. cbn [app]. apply (drop_spaces_app (w :: ws1)), blanks_forallb.
      by apply Forall_cons. }
  rewrite Hs. destruct code as [|c code].
  - cbn [app]. rewrite drop_spaces_app by by apply blanks_forallb.
    reflexivity.
  - rewrite drop_spaces_trimmed_app by (done || apply (no_blank_trimmed _ Hcode)).
    rewrite (app_assoc (c :: code) ws2 fence), strip_fence_end_app.
    by apply trim_blank_ends.
Qed.

(** A block fenced with another tag keeps the tag as its first line. *)
Lemma clean_other_tag (tag code : jsstring) :
  tag ≠ [] → no_blank_at_ends tag → (∀ t, tag ≠ lit "python" ++ t) →
  code ≠ [] → no_blank_at_ends code →
  cleanGeneratedCode (fence ++ tag ++ [LF] ++ code ++ [LF] ++ fence) = tag ++ [LF] ++ code.
Proof.
  intros Hne Htag Hother Hcne Hcode. rewrite cleanGeneratedCode_direct.
  assert (Hs : strip_fence_start (fence ++ tag ++ [LF] ++ code ++ [LF] ++ fence) =
               tag ++ [LF] ++ code ++ [LF] ++ fence).
  { unfold strip_fence_start. rewrite starts_with_app, drop_fence. cbn zeta.
    rewrite (other_tag_is_not_python (lit "python") tag).
    - apply drop_spaces_trimmed_app; [apply (no_blank_trimmed _ Htag)|done].
    - each_char ltac:(unfold LF; lia).
    - done. }
  rewrite Hs.
  replace (tag ++ [LF] ++ code ++ [LF] ++ fence)
    with (((tag ++ [LF] ++ code) ++ [LF]) ++ fence) by by rewrite <- !app_assoc.
  rewrite strip_fence_end_app. apply trim_blank_ends.
  - intros c [Hc|Hc].
    + apply Htag. left. destruct tag; [done|]. exact Hc.
    + apply Hcode. right. rewrite !app_assoc in Hc.
      rewrite last_app in Hc. destruct (last code) eqn:Hl; [done|].
      by apply last_None in Hl.
  - apply Forall_cons_2; [|apply Forall_nil_2]. unfold white_space, LF. lia.
Qed.

(** C7, as stated, fails on a fence tagged with a language other than
    [python]: the opening marker is removed and the tag stays in the code. *)
Lemma clean_generated_code_counterexample :
  cleanGeneratedCode (lit "```js" ++ [LF] ++ lit "const x = 1;" ++ [LF] ++ lit "```") =
    lit "js" ++ [LF] ++ lit "const x = 1;".
Proof. vm_compute. reflexivity. Qed.

(** C7 (amended): for an answer made of a code-fence marker, the tag [python]
    or no tag, whitespace, the code, optional whitespace and a closing
    code-fence marker, [cleanGeneratedCode] removes both markers and the tag
    and trims the surrounding whitespace: the result is the code.  A tag that
    does not begin with [python] is not removed: it stays as the first line
    of the result.  The answer of the specification's example is cleaned to
    [def add(a,b): return a+b]. *)
Theorem clean_generated_code_strips_python_fence :
  (∀ tag ws1 code ws2 : jsstring,
     tag = lit "python" ∨ tag = [] →
     ws1 ≠ [] → Forall white_space ws1 → Forall white_space ws2 →
     no_blank_at_ends code →
     cleanGeneratedCode (lit "```" ++ tag ++ ws1 ++ code ++ ws2 ++ lit "```") = code) ∧
  (∀ tag code : jsstring,
     tag ≠ [] → no_blank_at_ends tag → (∀ t, tag ≠ lit "python" ++ t) →
     code ≠ [] → no_blank_at_ends code →
     cleanGeneratedCode (lit "```" ++ tag ++ [LF] ++ code ++ [LF] ++ lit "```") =
       tag ++ [LF] ++ code) ∧
  cleanGeneratedCode (lit "```python" ++ [LF] ++ lit "def add(a,b): return a+b" ++ [LF]
                      ++ lit "```") = lit "def add(a,b): return a+b".
Proof.
  split; [apply clean_fenced_block|]. split; [apply clean_other_tag|].
  vm_compute. reflexivity.
Qed.

Lemma clean_generated_code_strips_python_fence_witness :
  cleanGeneratedCode (lit "```" ++ lit "python" ++ [13; LF; 32; 32] ++ lit "return 1"
                      ++ [13; LF; 9] ++ lit "```") = lit "return 1" ∧
  cleanGeneratedCode (lit "```" ++ lit "py" ++ [LF] ++ lit "return 1" ++ [LF] ++ lit "```") =
    lit "py" ++ [LF] ++ lit "return 1".
Proof.
  split.
  - apply (proj1 clean_generated_code_strips_python_fence (lit "python") [13; LF; 32; 32]
             (lit "return 1") [13; LF; 9]).
    + left. reflexivity.
    + discriminate.
    + each_char ltac:(unfold white_space, LF; lia).
    + each_char ltac:(unfold white_space, LF; lia).
    + intros c [H|H]; vm_compute in H; injection H as <-; unfold white_space; lia.
  - apply (proj1 (proj2 clean_generated_code_strips_python_fence) (lit "py") (lit "return 1")).
    + discriminate.
    + intros c [H|H]; vm_compute in H; injection H as <-; unfold white_space; lia.
    + intros t H. discriminate H.
    + discriminate.
    + intros c [H|H]; vm_compute in H; injection H as <-; unfold white_space; lia.
Defined.

(** ** The throttle, the watcher and the chat panel *)

Module ChatFacts.

Import Chat ChatTerms.
Local Open Scope Z_scope.

Lemma shouldReindex_spec (m : gmap jsstring Z) root now :
  shouldReindex m root now = true ↔ now - default 0 (m !! root) > 60000.
Proof. unfold shouldReindex. rewrite Z.gtb_ltb, Z.ltb_lt. lia. Qed.

Lemma shouldReindex_false (m : gmap jsstring Z) root now :
  shouldReindex m root now = false ↔ now - default 0 (m !! root) ≤ 60000.
Proof. unfold shouldReindex. rewrite Z.gtb_ltb, Z.ltb_ge. lia. Qed.

Lemma onDidReceiveMessage_submit (h : host) (now : Z) (panel : nat) (msg : message)
    (m : gmap jsstring Z) :
  question msg ≠ [] → api_throws h = false → detect_parent h ≠ [] →
  onDidReceiveMessage h now panel msg m = submit now panel msg (detect_parent h) m.
Proof.
  intros Hq Ha Hp. unfold onDidReceiveMessage.
  destruct (question msg); [done|]. rewrite Ha.
  destruct (detect_parent h); [done|]. done.
Qed.

Lemma submit_skips (now : Z) (panel : nat) (msg : message) (root : jsstring)
    (m : gmap jsstring Z) :
  shouldReindex m root now = false →
  submit now panel msg root m =
    {| indexed := m;
       actions := [PostMessage panel (Status (id msg) Thinking);
                   Fetch (PostChat (question msg) root)];
       next := Some (ChatFetch panel msg) |}.
Proof. intros H. unfold submit. by rewrite H. Qed.

Lemma submit_indexes (now : Z) (panel : nat) (msg : message) (root : jsstring)
    (m : gmap jsstring Z) :
  shouldReindex m root now = true →
  submit now panel msg root m =
    {| indexed := m;
       actions := [PostMessage panel (Status (id msg) Indexing); Fetch (PostIndex root)];
       next := Some (ChatIndex panel msg root now) |}.
Proof. intros H. unfold submit. by rewrite H. Qed.

(** Case analysis on how the calls of a submission settle. *)
Ltac settle_cases oi oc :=
  unfold submission, and_then, settle, index_settled, chat_settled, json_settled, catch;
  simpl;
  destruct oi as [?|?]; simpl;
  (let r := fresh "res" in
   destruct oc as [?|r]; simpl;
   [| destruct (ok r) eqn:?; simpl; [destruct (body r) eqn:?; simpl|]]).

Lemma submission_skipping (h : host) (now : Z) (panel : nat) (msg : message)
    (oi oc : fetch_outcome) (m : gmap jsstring Z) :
  question msg ≠ [] → api_throws h = false → detect_parent h ≠ [] →
  shouldReindex m (detect_parent h) now = false →
  index_calls (actions (submission h now panel msg oi oc m)) = [].
Proof.
  intros Hq Ha Hp Hs. unfold submission.
  rewrite onDidReceiveMessage_submit, submit_skips by done.
  settle_cases oi oc; done.
Qed.

Lemma submission_indexing (h : host) (now : Z) (panel : nat) (msg : message)
    (oi oc : fetch_outcome) (m : gmap jsstring Z) :
  question msg ≠ [] → api_throws h = false → detect_parent h ≠ [] →
  shouldReindex m (detect_parent h) now = true →
  index_calls (actions (submission h now panel msg oi oc m)) = [detect_parent h] ∧
  ∃ rest, actions (submission h now panel msg oi oc m) =
    PostMessage panel (Status (id msg) Indexing) :: Fetch (PostIndex (detect_parent h)) :: rest
    ∧ index_calls rest = [].
Proof.
  intros Hq Ha Hp Hs. unfold submission.
  rewrite onDidReceiveMessage_submit, submit_indexes by done.
  settle_cases oi oc; (split; [done|]); eexists; (split; [reflexivity|done]).
Qed.

(** C1, as stated, fails at the boundary: the root was marked at time 1000,
    the question arrives exactly 60000 ms later, and no index call is made
    although the stated predicate [now - lastIndexed >= 60000] holds. *)
Lemma reindex_at_sixty_seconds_counterexample :
  let m := markIndexed root0 1000 ∅ in
  m !! root0 = Some 1000 ∧ 61000 - 1000 >= 60000 ∧
  shouldReindex m root0 61000 = false ∧
  index_calls (actions (submission folder_host 61000 0 msg0
                          (Resolved answer0) (Resolved answer0) m)) = [].
Proof. vm_compute. repeat split; congruence. Qed.

(** C1 (amended): for a root marked at [t0], a question at [t1] skips the
    index call when [t0 <= t1 <= t0 + 60000] and performs it, first of all
    calls, when [t1 > t0 + 60000]: the decision is exactly
    [now - lastIndexed(root) > 60000]. *)
Theorem reindex_after_more_than_sixty_seconds (h : host) (panel : nat) (msg : message)
    (oi oc : fetch_outcome) (m : gmap jsstring Z) (root : jsstring) (t0 t1 : Z) :
  question msg ≠ [] → api_throws h = false → detect_parent h = root → root ≠ [] →
  m !! root = Some t0 →
  (shouldReindex m root t1 = true ↔ t1 - t0 > 60000) ∧
  (t0 ≤ t1 ≤ t0 + 60000 →
     index_calls (actions (submission h t1 panel msg oi oc m)) = []) ∧
  (t0 + 60000 < t1 →
     index_calls (actions (submission h t1 panel msg oi oc m)) = [root] ∧
     ∃ rest, actions (submission h t1 panel msg oi oc m) =
       PostMessage panel (Status (id msg) Indexing) :: Fetch (PostIndex root) :: rest).
Proof.
  intros Hq Ha <- Hp Hm.
  assert (Hd : ∀ t, shouldReindex m (detect_parent h) t = true ↔ t - t0 > 60000).
  { intros t. rewrite shouldReindex_spec, Hm. done. }
  split; [apply Hd|]. split.
  - intros Ht. apply submission_skipping; try done.
    apply shouldReindex_false. rewrite Hm. simpl. lia.
  - intros Ht.
    destruct (submission_indexing h t1 panel msg oi oc m) as (Hi & rest & Hr & _); try done.
    { apply Hd. lia. }
    split; [done|]. by exists rest.
Qed.

Lemma reindex_after_more_than_sixty_seconds_witness :
  index_calls (actions (submission folder_host 61000 0 msg0 (Resolved answer0)
                          (Resolved answer0) (markIndexed root0 1000 ∅))) = [] ∧
  index_calls (actions (submission folder_host 61001 0 msg0 (Resolved answer0)
                          (Resolved answer0) (markIndexed root0 1000 ∅))) = [root0].
Proof.
  split.
  - destruct (reindex_after_more_than_sixty_seconds folder_host 0 msg0 (Resolved answer0)
                (Resolved answer0) (markIndexed root0 1000 ∅) root0 1000 61000)
      as (_ & Hskip & _).
    + vm_compute. congruence.
    + reflexivity.
    + reflexivity.
    + vm_compute. congruence.
    + reflexivity.
    + apply Hskip. lia.
  - destruct (reindex_after_more_than_sixty_seconds folder_host 0 msg0 (Resolved answer0)
                (Resolved answer0) (markIndexed root0 1000 ∅) root0 1000 61001)
      as (_ & _ & Hindex).
    + vm_compute. congruence.
    + reflexivity.
    + reflexivity.
    + vm_compute. congruence.
    + reflexivity.
    + apply Hindex. lia.
Defined.

(** C2: for a workspace root with no entry in the throttle map and every time
    [t] that [Date.now()] gives in a running editor (a time later than the
    first minute of 1970, the absent entry being read as the time 0), the
    decision for a question at time [t] is to re-index, and the index call
    for that root is the first call of the submission, before the chat
    call. *)
Theorem never_indexed_root_is_indexed (h : host) (panel : nat) (msg : message)
    (oi oc : fetch_outcome) (m : gmap jsstring Z) (root : jsstring) (t : Z) :
  question msg ≠ [] → api_throws h = false → detect_parent h = root → root ≠ [] →
  m !! root = None → 60000 < t →
  shouldReindex m root t = true ∧
  index_calls (actions (submission h t panel msg oi oc m)) = [root] ∧
  ∃ rest, actions (submission h t panel msg oi oc m) =
    PostMessage panel (Status (id msg) Indexing) :: Fetch (PostIndex root) :: rest
    ∧ index_calls rest = [].
Proof.
  intros Hq Ha <- Hp Hm Ht.
  assert (Hd : shouldReindex m (detect_parent h) t = true).
  { rewrite shouldReindex_spec, Hm. simpl. lia. }
  split; [done|].
  destruct (submission_indexing h t panel msg oi oc m) as (Hi & rest & Hr & Hrest); try done.
  split; [done|]. by exists rest.
Qed.

Lemma never_indexed_root_is_indexed_witness :
  index_calls (actions (submission folder_host 1700000000000 0 msg0 (Resolved answer0)
                          (Resolved answer0) ∅)) = [root0].
Proof.
  destruct (never_indexed_root_is_indexed folder_host 0 msg0 (Resolved answer0)
              (Resolved answer0) ∅ root0 1700000000000) as (_ & Hindex & _).
  - vm_compute. congruence.
  - reflexivity.
  - reflexivity.
  - vm_compute. congruence.
  - reflexivity.
  - lia.
  - exact Hindex.
Defined.

(** What the watcher does for a new file inside a workspace root: one index
    call with the root whatever the map holds; when the handler has run to
    its end the root is marked with the time at which the call settled if
    the call yielded a response, of any status, and the map is as it was if
    the call was rejected.  The older revision makes the same call. *)
Lemma creation_indexes_once (h : host) (uri root : jsstring)
    (m : gmap jsstring Z) (now : Z) (o : fetch_outcome) :
  getWorkspaceFolder h uri = Some root →
  actions (creation h now uri o m) = [Fetch (PostIndex root)] ∧
  next (creation h now uri o m) = None ∧
  indexed (creation h now uri o m) =
    match o with
    | Resolved _ => <[root := now]> m
    | Rejected _ => m
    end ∧
  Legacy.actions (Legacy.creation h uri o) = [Fetch (PostIndex root)] ∧
  Legacy.next (Legacy.creation h uri o) = None.
Proof.
  intros Hf.
  unfold creation, Legacy.creation, onDidCreate, Legacy.onDidCreate, and_then, Legacy.and_then.
  rewrite Hf. simpl. unfold watcher_settled.
  split; [by destruct o|]. split; [by destruct o|]. split; [by destruct o|]. done.
Qed.

(** C3: the code at the failing input.  A file is created in the folder
    [/proj], nothing is marked yet, and the backend answers the index call
    with status 500.  The watcher makes its one index call and marks the root
    all the same, so that a question one second later is sent without any
    index call; only a rejected call leaves the root unmarked. *)
Theorem creation_marks_after_server_error :
  let r := creation folder_host 1700000000000 (lit "/proj/a.ts") (Resolved failure0) ∅ in
  status failure0 = 500%N ∧
  actions r = [Fetch (PostIndex root0)] ∧
  indexed r !! root0 = Some 1700000000000 ∧
  actions (submission folder_host 1700000001000 0 msg0 (Resolved answer0) (Resolved answer0)
             (indexed r)) =
    [PostMessage 0 (Status 7 Thinking); Fetch (PostChat (lit "why") root0);
     PostMessage 0 (Answer 7 (VString (lit "42")))] ∧
  indexed (creation folder_host 1700000000000 (lit "/proj/a.ts")
             (Rejected (lit "connect ECONNREFUSED 127.0.0.1:8000")) ∅) !! root0 = None.
Proof. vm_compute. done. Qed.

(** C9: for a new file outside every workspace folder the handler makes no
    HTTP call and leaves the throttle map as it was, in both revisions. *)
Theorem creation_outside_workspace_is_ignored (h : host) (uri : jsstring)
    (m : gmap jsstring Z) (now : Z) (o : fetch_outcome) :
  getWorkspaceFolder h uri = None →
  onDidCreate h uri m = {| indexed := m; actions := []; next := None |} ∧
  creation h now uri o m = {| indexed := m; actions := []; next := None |} ∧
  Legacy.creation h uri o = {| Legacy.actions := []; Legacy.next := None |}.
Proof.
  intros Hf.
  unfold creation, Legacy.creation, onDidCreate, Legacy.onDidCreate, and_then, Legacy.and_then.
  rewrite Hf. done.
Qed.

Lemma creation_outside_workspace_is_ignored_witness :
  creation outside_host 5000 (lit "/tmp/a.ts") (Resolved answer0) (markIndexed root0 1 ∅) =
    {| indexed := markIndexed root0 1 ∅; actions := []; next := None |}.
Proof.
  apply (creation_outside_workspace_is_ignored outside_host (lit "/tmp/a.ts")
           (markIndexed root0 1 ∅) 5000 (Resolved answer0)).
  reflexivity.
Defined.



(** What a resumed question handler posts and sends, and where it stands
    afterwards, does not depend on the map: handlers running in between
    cannot change it. *)
Lemma settle_frame (clock : Z) (oi oc : fetch_outcome) (t : task)
    (m m' : gmap jsstring Z) :
  actions (settle clock oi oc t m) = actions (settle clock oi oc t m') ∧
  next (settle clock oi oc t m) = next (settle clock oi oc t m').
Proof.
  destruct t; simpl;
    unfold watcher_settled, index_settled, chat_settled, json_settled, catch.
  - by destruct oi.
  - by destruct oi.
  - destruct oc as [e|res]; [done|]. by destruct (ok res).
  - by destruct (body res).
Qed.

(** What a question that goes to the backend posts and sends, in both
    revisions, by cases on how the calls settle. *)
Lemma submission_answers (h : host) (now : Z) (panel : nat)
    (msg : message) (oi oc : fetch_outcome) (m : gmap jsstring Z) :
  question msg ≠ [] → api_throws h = false → detect_parent h ≠ [] →
  let r := submission h now panel msg oi oc m in
  let l := Legacy.submission h panel msg oi oc in
  next r = None ∧ Legacy.next l = None ∧
  (chat_calls (actions r) = [(question msg, detect_parent h)] ∧
   answers (actions r) = [(panel, id msg, posted_answer oc)]
   ∨ ∃ e, oi = Rejected e ∧ chat_calls (actions r) = [] ∧
          answers (actions r) = [(panel, id msg, VString (error_text e))]) ∧
  (chat_calls (Legacy.actions l) = [(question msg, detect_parent h)] ∧
   answers (Legacy.actions l) = [(panel, id msg, posted_answer oc)]
   ∨ ∃ e, oi = Rejected e ∧ chat_calls (Legacy.actions l) = [] ∧
          answers (Legacy.actions l) = [(panel, id msg, VString (error_text e))]).
Proof.
  intros Hq Ha Hp. simpl.
  unfold submission, Legacy.submission.
  rewrite onDidReceiveMessage_submit by done.
  unfold Legacy.onDidReceiveMessage. rewrite Ha.
  destruct (question msg) as [|q0 qs] eqn:Eq; [done|].
  destruct (detect_parent h) as [|p0 ps] eqn:Ep; [done|].
  unfold submit, Legacy.and_then, Legacy.settle, Legacy.index_settled,
    Legacy.chat_settled, Legacy.json_settled, Legacy.catch.
  destruct (shouldReindex m (p0 :: ps) now);
    settle_cases oi oc; rewrite ?Eq; simpl;
    repeat match goal with
           | H : ok _ = _ |- _ => rewrite H
           | H : body _ = _ |- _ => rewrite H
           end; simpl;
    (split; [done|]); (split; [done|]); eauto 10.
Qed.

(** What the handler posts is what the specification says is owed. *)
Lemma posted_answer_is_owed (oc : fetch_outcome) : owed_answer oc (posted_answer oc).
Proof.
  destruct oc as [e|res]; [done|]. simpl. destruct (ok res) eqn:Hok.
  - apply ok_2xx in Hok. split; [intros ?; lia|]. intros _. by destruct (body res).
  - apply ok_not_2xx in Hok. split; [done|]. intros ?. lia.
Qed.

(** C8: a question that goes to the backend ends, in both revisions, with
    exactly one [{id, answer}] message for its id.  When the chat call is
    made, the answer is the [answer] field of the body if the status of the
    response is between 200 and 299, and a text built from the error if the
    call is rejected or the status is below 200 or above 299; when the index
    call before it is rejected, no chat call is made and the answer is a text
    built from that error.  At most one chat call is made, and the handler is
    then over. *)
Theorem submission_posts_one_final_answer (h : host) (now : Z) (panel : nat)
    (msg : message) (oi oc : fetch_outcome) (m : gmap jsstring Z) :
  question msg ≠ [] → api_throws h = false → detect_parent h ≠ [] →
  let r := submission h now panel msg oi oc m in
  let l := Legacy.submission h panel msg oi oc in
  next r = None ∧ Legacy.next l = None ∧
  (chat_calls (actions r) = [(question msg, detect_parent h)] ∧
   (∃ a, answers (actions r) = [(panel, id msg, a)] ∧ owed_answer oc a)
   ∨ ∃ e, oi = Rejected e ∧ chat_calls (actions r) = [] ∧
          answers (actions r) = [(panel, id msg, VString (error_text e))]) ∧
  (chat_calls (Legacy.actions l) = [(question msg, detect_parent h)] ∧
   (∃ a, answers (Legacy.actions l) = [(panel, id msg, a)] ∧ owed_answer oc a)
   ∨ ∃ e, oi = Rejected e ∧ chat_calls (Legacy.actions l) = [] ∧
          answers (Legacy.actions l) = [(panel, id msg, VString (error_text e))]).
Proof.
  intros Hq Ha Hp.
  pose proof (posted_answer_is_owed oc) as Howed.
  destruct (submission_answers h now panel msg oi oc m Hq Ha Hp) as (Hn & Hl & Hr & Hlr).
  split; [done|]. split; [done|]. split.
  - destruct Hr as [[Hc Hans] | Hrej]; [left|by right].
    split; [done|]. by exists (posted_answer oc).
  - destruct Hlr as [[Hc Hans] | Hrej]; [left|by right].
    split; [done|]. by exists (posted_answer oc).
Qed.

Lemma submission_posts_one_final_answer_witness :
  answers (actions (submission folder_host 1700000000000 0 msg0 (Resolved answer0)
                      (Resolved answer0) ∅)) = [(0%nat, 7, VString (lit "42"))] ∧
  answers (actions (submission folder_host 1700000000000 0 msg0 (Resolved answer0)
                      (Resolved failure0) ∅)) =
    [(0%nat, 7,
      VString ([10060]%N ++ lit " Error: Server returned 500: Internal Server Error"))] ∧
  answers (actions (submission folder_host 1700000000000 0 msg0 (Resolved answer0)
                      (Rejected (lit "socket hang up")) ∅)) =
    [(0%nat, 7, VString ([10060]%N ++ lit " Error: socket hang up"))].
Proof.
  split; [|split].
  - destruct (submission_posts_one_final_answer folder_host 1700000000000 0 msg0
                (Resolved answer0) (Resolved answer0) ∅) as (_ & _ & [[_ H] | H] & _).
    + vm_compute. congruence.
    + reflexivity.
    + vm_compute. congruence.
    + destruct H as (a & Ha & _ & Hs). simpl in Hs.
      rewrite (Hs ltac:(split; vm_compute; congruence)) in Ha. exact Ha.
    + destruct H as (e & He & _). discriminate He.
  - destruct (submission_posts_one_final_answer folder_host 1700000000000 0 msg0
                (Resolved answer0) (Resolved failure0) ∅) as (_ & _ & [[_ H] | H] & _).
    + vm_compute. congruence.
    + reflexivity.
    + vm_compute. congruence.
    + destruct H as (a & Ha & Hf & _). simpl in Hf.
      rewrite (Hf ltac:(right; reflexivity)) in Ha. exact Ha.
    + destruct H as (e & He & _). discriminate He.
  - destruct (submission_posts_one_final_answer folder_host 1700000000000 0 msg0
                (Resolved answer0) (Rejected (lit "socket hang up")) ∅)
      as (_ & _ & [[_ H] | H] & _).
    + vm_compute. congruence.
    + reflexivity.
    + vm_compute. congruence.
    + destruct H as (a & Ha & Hf). simpl in Hf. rewrite Hf in Ha. exact Ha.
    + destruct H as (e & He & _). discriminate He.
Defined.

End ChatFacts.

(** ** Inline generation *)

Module InlineFacts.

Import Inline InlineTerms.

Lemma in_difference (x L : jsstring) (pl : gset jsstring) :
  x ∈ pl → x ≠ L → x ∈ pl ∖ {[L]}.
Proof.
  intros Hx Hne. apply elem_of_difference. split; [done|].
  by intros ?%elem_of_singleton.
Qed.

Lemma not_in_difference (L : jsstring) (pl : gset jsstring) : L ∉ pl ∖ {[L]}.
Proof. intros [_ H]%elem_of_difference. apply H. by apply elem_of_singleton. Qed.

Lemma in_union_new (L : jsstring) (pl : gset jsstring) : L ∈ {[L]} ∪ pl.
Proof. apply elem_of_union. left. by apply elem_of_singleton. Qed.

Lemma in_union_old (x L : jsstring) (pl : gset jsstring) : x ∈ pl → x ∈ {[L]} ∪ pl.
Proof. intros Hx. apply elem_of_union. by right. Qed.

Lemma process_trigger (h : host) (doc : doc_id) (c : change) (rest : list change)
    (pl : gset jsstring) (lineText query : jsstring) :
  includes LF (text c) = true →
  lineAt h doc (line c) = Some lineText →
  lineText ∉ pl →
  triggers lineText query →
  process h doc (c :: rest) pl =
    {| processed := {[lineText]} ∪ pl;
       actions := [ShowInformationMessage (generating query);
                   Fetch (PostChat query (parent_root_of h doc))];
       next := Suspended (AwaitFetch doc lineText (line c) rest) |}.
Proof.
  intros Hnl Hline Hnew (g & Hm & Hq & Hne).
  cbn [process]. rewrite Hnl, Hline. cbn [negb].
  destruct (decide (lineText ∈ pl)); [done|].
  rewrite Hm, Hq. by destruct query.
Qed.

Lemma process_skip (h : host) (doc : doc_id) (c : change) (rest : list change)
    (pl : gset jsstring) (lineText : jsstring) :
  lineAt h doc (line c) = Some lineText →
  lineText ∈ pl →
  process h doc (c :: rest) pl = process h doc rest pl.
Proof.
  intros Hline Hin. cbn [process]. rewrite Hline.
  destruct (negb (includes LF (text c))); [done|].
  by destruct (decide (lineText ∈ pl)).
Qed.

Lemma process_extends (h : host) (doc : doc_id) (changes : list change)
    (pl : gset jsstring) :
  extends pl (process h doc changes pl).
Proof.
  induction changes as [|c rest IH]; [done|].
  cbn [process].
  destruct (negb (includes LF (text c))); [done|].
  destruct (lineAt h doc (line c)) as [lineText|]; [|done].
  destruct (decide (lineText ∈ pl)); [done|].
  destruct (match1 true COMMENT_TRIGGER lineText) as [g|] eqn:Hm; [|done].
  destruct (trim g) as [|q0 q] eqn:Hq; [done|].
  unfold extends. simpl. split; [done|]. split; [done|].
  exists (q0 :: q), g. by rewrite Hm, Hq.
Qed.

Lemma handler_extends (h : host) (ev : event) (pl : gset jsstring) :
  extends pl (onDidChangeTextDocument h ev pl).
Proof.
  unfold onDidChangeTextDocument.
  destruct (activeTextEditor h) as [doc|]; [|done].
  destruct (decide (doc = document ev)); [|done].
  apply process_extends.
Qed.

Lemma catch_extends (h : host) (doc : doc_id) (lineText : jsstring)
    (rest : list change) (message : jsstring) (pl : gset jsstring) :
  extends (pl ∖ {[lineText]}) (catch h doc lineText rest message pl).
Proof. unfold catch. apply (process_extends h doc rest (pl ∖ {[lineText]})). Qed.

Lemma fetch_settled_extends (h : host) (doc : doc_id) (lineText : jsstring)
    (lineIndex : nat) (rest : list change) (o : fetch_outcome) (pl : gset jsstring) :
  lineText ∈ pl → (∃ q, triggers lineText q) →
  extends (pl ∖ {[lineText]}) (fetch_settled h doc lineText lineIndex rest o pl).
Proof.
  intros Hin Htr. unfold fetch_settled.
  destruct o as [e|res]; [apply catch_extends|].
  destruct (ok res); [|apply catch_extends].
  unfold extends. simpl. split; [apply not_in_difference|]. split; [|done].
  apply union_difference_singleton_L in Hin. done.
Qed.

Lemma json_settled_extends (h : host) (res : response) (doc : doc_id)
    (lineText : jsstring) (lineIndex : nat) (rest : list change) (pl : gset jsstring) :
  extends (pl ∖ {[lineText]}) (json_settled h res doc lineText lineIndex rest pl)
  ∨ (∃ a, body res = JsonData (VString a))
    ∧ extends pl (json_settled h res doc lineText lineIndex rest pl).
Proof.
  unfold json_settled.
  destruct (body res) as [e|e|[a|e]]; try (left; apply catch_extends).
  right. split; [by exists a|]. apply (process_extends h doc rest pl).
Qed.

Lemma wf_init : wf init.
Proof. split; [constructor|]. intros t Ht. by apply elem_of_nil in Ht. Qed.

Lemma wf_commit (s : sys) (others : list task) (pl0 : gset jsstring) (r : result) :
  NoDup (held <$> others) →
  (∀ t, t ∈ others → held t ∈ pl0 ∧ (∃ q, triggers (held t) q)) →
  extends pl0 r →
  wf (commit s others r).
Proof.
  intros Hnd Hin Hext. unfold extends in Hext. unfold wf, commit. simpl.
  destruct (next r) as [|t|]; simpl.
  - rewrite app_nil_r. split; [done|]. intros t Ht. rewrite Hext. by apply Hin.
  - destruct Hext as (Hnew & Hp & Htr). split.
    + rewrite fmap_app. simpl. apply NoDup_app. split; [done|]. split.
      * intros x Hx ->%list_elem_of_singleton.
        apply list_elem_of_fmap in Hx as (t' & Heq & Ht').
        apply Hnew. rewrite Heq. by apply Hin.
      * apply NoDup_singleton.
    + intros t' [Ht'| ->%list_elem_of_singleton]%elem_of_app.
      * rewrite Hp. destruct (Hin t' Ht') as [H1 H2]. split; [by apply in_union_old|done].
      * rewrite Hp. split; [apply in_union_new|done].
  - rewrite app_nil_r. split; [done|]. intros t Ht. rewrite Hext. by apply Hin.
Qed.

Lemma wf_others (s : sys) (l1 l2 : list task) (t : task) :
  wf s → pool s = l1 ++ t :: l2 →
  NoDup (held <$> (l1 ++ l2)) ∧
  (held t ∈ processedLines s ∧ (∃ q, triggers (held t) q)) ∧
  ∀ t', t' ∈ l1 ++ l2 →
        held t' ≠ held t ∧ held t' ∈ processedLines s ∧ (∃ q, triggers (held t') q).
Proof.
  intros [Hnd Hin] Hpool. rewrite Hpool in Hnd, Hin.
  rewrite fmap_app in Hnd. simpl in Hnd.
  apply NoDup_app in Hnd as (Hnd1 & Hdisj & Hnd2).
  apply NoDup_cons in Hnd2 as [Hnot Hnd2].
  split; [|split].
  - rewrite fmap_app. apply NoDup_app. split; [done|]. split; [|done].
    intros x Hx Hx2. apply (Hdisj x Hx). by right.
  - apply Hin. apply elem_of_app. right. by left.
  - intros t' Ht'. split.
    + apply elem_of_app in Ht' as [Ht'|Ht'].
      * intros Heq. apply (Hdisj (held t')).
        -- apply list_elem_of_fmap. by exists t'.
        -- rewrite Heq. by left.
      * intros Heq. apply Hnot. rewrite <- Heq. apply list_elem_of_fmap. by exists t'.
    + apply Hin. apply elem_of_app in Ht' as [Ht'|Ht']; apply elem_of_app; [by left|].
      right. by right.
Qed.

Lemma wf_step (s s' : sys) : step s s' → wf s → wf s'.
Proof.
  intros Hstep Hwf. destruct Hstep as [h ev | h o l1 l2 doc L idx rest Hpool
                                       | h l1 l2 res doc L idx rest Hpool].
  - destruct Hwf as [Hnd Hin].
    apply (wf_commit s (pool s) (processedLines s)); [done|done|apply handler_extends].
  - destruct (wf_others s l1 l2 _ Hwf Hpool) as (Hnd & [HL Htr] & Hrest). simpl in *.
    apply (wf_commit s (l1 ++ l2) (processedLines s ∖ {[L]})); [done| |].
    + intros t Ht. destruct (Hrest t Ht) as (Hne & Hin & Ht').
      split; [by apply in_difference|done].
    + by apply fetch_settled_extends.
  - destruct (wf_others s l1 l2 _ Hwf Hpool) as (Hnd & [HL Htr] & Hrest). simpl in *.
    destruct (json_settled_extends h res doc L idx rest (processedLines s))
      as [Hext | [_ Hext]].
    + apply (wf_commit s (l1 ++ l2) (processedLines s ∖ {[L]})); [done| |done].
      intros t Ht. destruct (Hrest t Ht) as (Hne & Hin & Ht').
      split; [by apply in_difference|done].
    + apply (wf_commit s (l1 ++ l2) (processedLines s)); [done| |done].
      intros t Ht. destruct (Hrest t Ht) as (Hne & Hin & Ht'). done.
Qed.

Lemma wf_reachable (s : sys) : reachable s → wf s.
Proof.
  intros H. refine (rtc_ind_r (R:=step) wf init wf_init _ s H).
  intros y z _ Hs Hy. by apply (wf_step y z).
Qed.

Lemma settled_commit (L : jsstring) (s : sys) (others : list task)
    (pl0 : gset jsstring) (r : result) :
  L ∈ pl0 → (∀ t, t ∈ others → held t ≠ L) → extends pl0 r →
  settled_line L (commit s others r).
Proof.
  intros HL Hothers Hext. unfold extends in Hext. unfold settled_line, commit. simpl.
  destruct (next r) as [|t|]; simpl.
  - rewrite app_nil_r, Hext. done.
  - destruct Hext as (Hnew & -> & _). split; [by apply in_union_old|].
    intros t' [Ht'| ->%list_elem_of_singleton]%elem_of_app; [by apply Hothers|].
    intros Heq. apply Hnew. by rewrite Heq.
  - rewrite app_nil_r, Hext. done.
Qed.

Lemma settled_step (L : jsstring) (s s' : sys) :
  step s s' → settled_line L s → settled_line L s'.
Proof.
  intros Hstep [HL Hpool].
  destruct Hstep as [h ev | h o l1 l2 doc L' idx rest Hp | h l1 l2 res doc L' idx rest Hp].
  - apply (settled_commit L s (pool s) (processedLines s)); [done|done|].
    apply handler_extends.
  - assert (HL' : L' ≠ L).
    { apply (Hpool (AwaitFetch doc L' idx rest)). rewrite Hp.
      apply elem_of_app. right. by left. }
    assert (Ho : ∀ t, t ∈ l1 ++ l2 → held t ≠ L).
    { intros t Ht. apply Hpool. rewrite Hp.
      apply elem_of_app in Ht as [Ht|Ht]; apply elem_of_app; [by left|right; by right]. }
    unfold fetch_settled. destruct o as [e|res].
    + apply (settled_commit L s _ (processedLines s ∖ {[L']}));
        [by apply in_difference|done|].
      apply catch_extends.
    + destruct (ok res).
      * split; [done|]. simpl.
        intros t [Ht| ->%list_elem_of_singleton]%elem_of_app; [by apply Ho|done].
      * apply (settled_commit L s _ (processedLines s ∖ {[L']}));
          [by apply in_difference|done|].
        apply catch_extends.
  - assert (HL' : L' ≠ L).
    { apply (Hpool (AwaitJson res doc L' idx rest)). rewrite Hp.
      apply elem_of_app. right. by left. }
    assert (Ho : ∀ t, t ∈ l1 ++ l2 → held t ≠ L).
    { intros t Ht. apply Hpool. rewrite Hp.
      apply elem_of_app in Ht as [Ht|Ht]; apply elem_of_app; [by left|right; by right]. }
    destruct (json_settled_extends h res doc L' idx rest (processedLines s))
      as [Hext | [_ Hext]].
    + apply (settled_commit L s _ (processedLines s ∖ {[L']}));
        [by apply in_difference|done|done].
    + by apply (settled_commit L s _ (processedLines s)).
Qed.

Lemma settled_forever (L : jsstring) (s s' : sys) :
  rtc step s s' → settled_line L s → settled_line L s'.
Proof. induction 1; [done|]. intros Hs. apply IHrtc. by eapply settled_step. Qed.

(** When the body of a successful response carries a string, the line the
    handler waited for is settled. *)
Lemma success_settles (h : host) (s : sys) (l1 l2 : list task) (res : response)
    (doc : doc_id) (L : jsstring) (idx : nat) (rest : list change) (a : jsstring) :
  wf s → pool s = l1 ++ AwaitJson res doc L idx rest :: l2 →
  body res = JsonData (VString a) →
  settled_line L (commit s (l1 ++ l2) (json_settled h res doc L idx rest (processedLines s))).
Proof.
  intros Hwf Hp Hbody.
  destruct (wf_others s l1 l2 _ Hwf Hp) as (_ & [HL _] & Hrest). simpl in *.
  apply (settled_commit L s _ (processedLines s)); [done| |].
  - intros t Ht. by destruct (Hrest t Ht).
  - unfold json_settled. rewrite Hbody. apply (process_extends h doc rest).
Qed.

Lemma handler_trigger (h : host) (ev : event) (c : change) (rest : list change)
    (pl : gset jsstring) (lineText query : jsstring) :
  activeTextEditor h = Some (document ev) →
  contentChanges ev = c :: rest →
  includes LF (text c) = true →
  lineAt h (document ev) (line c) = Some lineText →
  lineText ∉ pl →
  triggers lineText query →
  onDidChangeTextDocument h ev pl =
    {| processed := {[lineText]} ∪ pl;
       actions := [ShowInformationMessage (generating query);
                   Fetch (PostChat query (parent_root_of h (document ev)))];
       next := Suspended (AwaitFetch (document ev) lineText (line c) rest) |}.
Proof.
  intros Hed Hch Hnl Hline Hnew Htr. unfold onDidChangeTextDocument.
  rewrite Hed, Hch. destruct (decide (document ev = document ev)); [|done].
  by apply process_trigger.
Qed.






Lemma catch_eq (h : host) (doc : doc_id) (L : jsstring) (idx : nat)
    (rest : list change) (o : fetch_outcome) (pl : gset jsstring) :
  fetch_failed o →
  fetch_settled h doc L idx rest o pl =
    prepend [ShowErrorMessage (generation_failed (failure_message o))]
      (process h doc rest (pl ∖ {[L]})).
Proof.
  intros Hf. unfold fetch_settled. destruct o as [e|res]; [done|].
  simpl in Hf. by rewrite Hf.
Qed.

(** A response with a 2xx status whose body is not JSON, or carries no string
    answer, makes the [try] block throw: it is handled like a failure. *)
Lemma unusable_body_releases_line (h : host) (res : response) (doc : doc_id)
    (L : jsstring) (idx : nat) (rest : list change) (pl : gset jsstring) :
  (∀ a, body res ≠ JsonData (VString a)) →
  ∃ message,
    json_settled h res doc L idx rest pl =
      prepend [ShowErrorMessage (generation_failed message)]
        (process h doc rest (pl ∖ {[L]})).
Proof.
  intros Hbody. unfold json_settled, catch.
  destruct (body res) as [e|e|[a|e]]; eauto. by destruct (Hbody a).
Qed.

Lemma reachable_sys1 : reachable sys1.
Proof. apply rtc_once. apply step_change. Qed.

Lemma reachable_sys2 : reachable sys2.
Proof.
  eapply rtc_r; [apply reachable_sys1|].
  apply (step_fetch sys1 host0 (Resolved code0) [] [] 0%nat line0 0%nat []).
  reflexivity.
Qed.

Lemma reachable_sys2n : reachable sys2n.
Proof.
  eapply rtc_r; [apply reachable_sys1|].
  apply (step_fetch sys1 host0 (Resolved no_answer0) [] [] 0%nat line0 0%nat []).
  reflexivity.
Qed.

(** When the [catch] block has run for the line a handler waited for and no
    change is left to process, the line is free again. *)
Lemma caught_line_is_released (s : sys) (l1 l2 : list task) (t : task)
    (h : host) (doc : doc_id) (message : jsstring) :
  reachable s → pool s = l1 ++ t :: l2 →
  released (held t)
    (commit s (l1 ++ l2)
       (prepend [ShowErrorMessage (generation_failed message)]
          (process h doc [] (processedLines s ∖ {[held t]})))).
Proof.
  intros Hreach Hpool. apply wf_reachable in Hreach.
  destruct (wf_others s l1 l2 _ Hreach Hpool) as (_ & [HL [q Hq]] & Hrest).
  unfold released. simpl. rewrite app_nil_r.
  split; [apply not_in_difference|]. split; [intros t' Ht'; by destruct (Hrest t' Ht')|].
  exists q. split; [by destruct Hq as (? & ? & ? & ?)|].
  intros h' ev c rest' Hed Hch Hnl Hline.
  rewrite (handler_trigger h' ev c rest' _ (held t) q); try done. apply not_in_difference.
Qed.

(** C5, as stated, fails for a chat call that does not fail in the stated
    sense: the call is answered with status 200, but the body has no string
    [answer].  The line was in the set while the handler waited; once the
    body has been read the line is out of the set, no handler waits for it,
    and the same edit sends the chat call again. *)
Lemma successful_call_without_answer_counterexample :
  status no_answer0 = 200 ∧
  reachable sys2n ∧
  pool sys2n = [AwaitJson no_answer0 0%nat line0 0%nat []] ∧
  line0 ∈ processedLines sys2n ∧
  (line0 ∉ processedLines sys3n) ∧
  pool sys3n = [] ∧
  chat_calls (actions (onDidChangeTextDocument host0 event0 (processedLines sys3n))) =
    [(lit "a function that adds two numbers", lit "/proj")].
Proof.
  split; [reflexivity|]. split; [apply reachable_sys2n|]. split; [reflexivity|].
  split; [apply in_union_new|].
  pose proof (caught_line_is_released sys2n [] []
                (AwaitJson no_answer0 0%nat line0 0%nat []) host0 0%nat
                (lit "Cannot read properties of undefined (reading 'replace')")
                reachable_sys2n eq_refl) as (Hout & _ & _).
  split; [exact Hout|]. split; [reflexivity|].
  vm_compute. reflexivity.
Qed.

(** C5 (amended): the chat call of a pending line fails when it is rejected,
    when it is answered with a status below 200 or above 299, or when the
    body of a 2xx response is not JSON or carries no string answer.  In each
    case the error is shown, the line is removed from the set and the loop
    goes on; if no change is left to process the line is then out of the set,
    no handler waits for it, and a later newline edit on a line with the same
    text issues a chat call again.  When the call is answered with a body
    that carries a string answer, the line stays in the set in every later
    state. *)
Theorem failed_request_releases_line :
  (∀ (s : sys) (l1 l2 : list task) (h : host) (o : fetch_outcome) (doc : doc_id)
     (L : jsstring) (idx : nat) (rest : list change),
     reachable s →
     pool s = l1 ++ AwaitFetch doc L idx rest :: l2 →
     (∃ e, o = Rejected e) ∨
       (∃ res, o = Resolved res ∧ (status res < 200 ∨ 299 < status res)) →
     let r := fetch_settled h doc L idx rest o (processedLines s) in
     r = prepend [ShowErrorMessage (generation_failed (failure_message o))]
           (process h doc rest (processedLines s ∖ {[L]})) ∧
     (rest = [] → released L (commit s (l1 ++ l2) r))) ∧
  (∀ (s : sys) (l1 l2 : list task) (h : host) (res : response) (doc : doc_id)
     (L : jsstring) (idx : nat) (rest : list change),
     reachable s →
     pool s = l1 ++ AwaitJson res doc L idx rest :: l2 →
     (∀ a, body res ≠ JsonData (VString a)) →
     let r := json_settled h res doc L idx rest (processedLines s) in
     (∃ message,
        r = prepend [ShowErrorMessage (generation_failed message)]
              (process h doc rest (processedLines s ∖ {[L]}))) ∧
     (rest = [] → released L (commit s (l1 ++ l2) r))) ∧
  (∀ (s s' : sys) (l1 l2 : list task) (h : host) (res : response) (doc : doc_id)
     (L : jsstring) (idx : nat) (rest : list change) (a : jsstring),
     reachable s →
     pool s = l1 ++ AwaitJson res doc L idx rest :: l2 →
     body res = JsonData (VString a) →
     rtc step (commit s (l1 ++ l2)
                 (json_settled h res doc L idx rest (processedLines s))) s' →
     L ∈ processedLines s').
Proof.
  split; [|split].
  - intros s l1 l2 h o doc L idx rest Hreach Hpool Hfail. simpl.
    assert (Hf : fetch_failed o).
    { destruct Hfail as [[e ->] | (res & -> & Hres)]; [done|].
      by apply ok_not_2xx. }
    split; [by apply catch_eq|]. intros ->.
    rewrite catch_eq by done.
    apply (caught_line_is_released s l1 l2 (AwaitFetch doc L idx []) h doc _ Hreach Hpool).
  - intros s l1 l2 h res doc L idx rest Hreach Hpool Hbody. simpl.
    destruct (unusable_body_releases_line h res doc L idx rest (processedLines s) Hbody)
      as [message Hm].
    split; [by exists message|]. intros ->. rewrite Hm.
    apply (caught_line_is_released s l1 l2 (AwaitJson res doc L idx []) h doc _ Hreach Hpool).
  - intros s s' l1 l2 h res doc L idx rest a Hreach Hpool Hbody Hrtc.
    apply wf_reachable in Hreach.
    apply (settled_forever L _ s' Hrtc).
    by apply (success_settles h s l1 l2 res doc L idx rest a).
Qed.

Lemma failed_request_releases_line_witness :
  released line0
    (commit sys1 []
       (fetch_settled host0 0%nat line0 0%nat [] (Resolved unavailable0)
          (processedLines sys1))) ∧
  released line0 sys3n ∧
  line0 ∈ processedLines
            (commit sys2 []
               (json_settled host0 code0 0%nat line0 0%nat [] (processedLines sys2))).
Proof.
  split; [|split].
  - destruct (proj1 failed_request_releases_line sys1 [] [] host0
                (Resolved unavailable0) 0%nat line0 0%nat []) as [_ H].
    + apply reachable_sys1.
    + reflexivity.
    + right. exists unavailable0. split; [reflexivity|]. right. reflexivity.
    + exact (H eq_refl).
  - destruct (proj1 (proj2 failed_request_releases_line) sys2n [] [] host0
                no_answer0 0%nat line0 0%nat []) as [_ H].
    + apply reachable_sys2n.
    + reflexivity.
    + intros a Ha. discriminate Ha.
    + exact (H eq_refl).
  - apply (proj2 (proj2 failed_request_releases_line) sys2 _ [] [] host0 code0 0%nat
             line0 0%nat [] (fenced (lit "python") (lit "def add(a,b): return a+b"))).
    + apply reachable_sys2.
    + reflexivity.
    + reflexivity.
    + apply rtc_refl.
Defined.

(** C6: in every state the event loop can reach, the suspended handlers wait
    for pairwise distinct line texts, all of them in the set, so a line text
    has at most one request outstanding; and once a request for a line text
    has succeeded, no handler ever waits for that text again and every later
    change on a line with that text is skipped without a chat call. *)
Theorem one_request_per_line_text (s : sys) :
  reachable s →
  NoDup (held <$> pool s) ∧
  (∀ t, t ∈ pool s → held t ∈ processedLines s) ∧
  (∀ (s' : sys) (l1 l2 : list task) (h : host) (res : response) (doc : doc_id)
     (L : jsstring) (idx : nat) (rest : list change) (a : jsstring),
     pool s = l1 ++ AwaitJson res doc L idx rest :: l2 →
     body res = JsonData (VString a) →
     rtc step (commit s (l1 ++ l2)
                 (json_settled h res doc L idx rest (processedLines s))) s' →
     (∀ t, t ∈ pool s' → held t ≠ L) ∧
     (∀ (h' : host) (doc' : doc_id) (c : change) (rest' : list change),
        lineAt h' doc' (line c) = Some L →
        process h' doc' (c :: rest') (processedLines s') =
        process h' doc' rest' (processedLines s')) ∧
     (∀ (h' : host) (ev : event) (c : change),
        contentChanges ev = [c] →
        lineAt h' (document ev) (line c) = Some L →
        chat_calls (actions (onDidChangeTextDocument h' ev (processedLines s'))) = [])).
Proof.
  intros Hreach. apply wf_reachable in Hreach. split; [apply Hreach|].
  split; [intros t Ht; by apply Hreach|].
  intros s' l1 l2 h res doc L idx rest a Hpool Hbody Hrtc.
  assert (Hs : settled_line L s').
  { apply (settled_forever L _ s' Hrtc).
    by apply (success_settles h s l1 l2 res doc L idx rest a). }
  destruct Hs as [HL Hnone]. split; [done|]. split.
  - intros h' doc' c rest' Hline. by apply (process_skip h' doc' c rest' _ L).
  - intros h' ev c Hch Hline. unfold onDidChangeTextDocument.
    destruct (activeTextEditor h') as [d|]; [|done].
    destruct (decide (d = document ev)) as [->|]; [|done].
    rewrite Hch. by rewrite (process_skip h' (document ev) c [] _ L).
Qed.

Lemma one_request_per_line_text_witness :
  NoDup (held <$> pool sys2) ∧
  chat_calls
    (actions
       (onDidChangeTextDocument host0 event0
          (processedLines
             (commit sys2 []
                (json_settled host0 code0 0%nat line0 0%nat [] (processedLines sys2)))))) = [].
Proof.
  destruct (one_request_per_line_text sys2 reachable_sys2) as (Hnd & _ & H).
  split; [exact Hnd|].
  destruct (H _ [] [] host0 code0 0%nat line0 0%nat []
              (fenced (lit "python") (lit "def add(a,b): return a+b"))
              eq_refl eq_refl (rtc_refl _ _)) as (_ & _ & Hev).
  apply (Hev host0 event0 {| text := [LF]; line := 0%nat |}); reflexivity.
Defined.

End InlineFacts.

(** * Further properties *)

(** ** More on cleaning and escaping *)

Lemma drop_spaces_head (s : jsstring) (c : N) (t : jsstring) :
  drop_spaces s = c :: t → is_space c = false.
Proof.
  induction s as [|x s IH]; simpl; [done|].
  destruct (is_space x) eqn:Hx; [done|]. by intros [= <- _].
Qed.

Lemma drop_spaces_keep (c : N) (t : jsstring) :
  is_space c = false → drop_spaces (c :: t) = c :: t.
Proof. intros H. simpl. by rewrite H. Qed.

Lemma drop_spaces_snoc (l : jsstring) (c : N) :
  is_space c = false → ∃ w, drop_spaces (l ++ [c]) = w ++ [c].
Proof.
  intros Hc. induction l as [|x l [w IH]]; simpl.
  - rewrite Hc. by exists [].
  - destruct (is_space x); [by exists w|]. by exists (x :: l).
Qed.

Lemma trim_trimmed (s : jsstring) : trimmed (trim s).
Proof.
  unfold trimmed, trim. split.
  - destruct (drop_spaces s) as [|c t] eqn:Hs; [done|].
    pose proof (drop_spaces_head s c t Hs) as Hc.
    destruct (drop_spaces_snoc (rev t) c Hc) as [w Hw].
    change (rev (c :: t)) with (rev t ++ [c]). rewrite Hw, rev_app_distr.
    simpl. by rewrite Hc.
  - rewrite rev_involutive. apply drop_spaces_idemp.
Qed.

Lemma trim_idemp (s : jsstring) : trim (trim s) = trim s.
Proof.
  destruct (trim_trimmed s) as [H1 H2]. unfold trim at 1.
  rewrite H1, H2. apply rev_involutive.
Qed.

Lemma drop_spaces_suffix (s : jsstring) : ∃ pre, s = pre ++ drop_spaces s.
Proof.
  induction s as [|c s [pre IH]]; simpl; [by exists []|].
  destruct (is_space c); [|by exists []].
  exists (c :: pre). simpl. by rewrite <- IH.
Qed.

Lemma trim_infix (s : jsstring) : ∃ pre suf, s = pre ++ trim s ++ suf.
Proof.
  unfold trim. destruct (drop_spaces_suffix s) as [pre Hpre].
  destruct (drop_spaces_suffix (rev (drop_spaces s))) as [suf Hsuf].
  exists pre, (rev suf). rewrite <- rev_app_distr, <- Hsuf, rev_involutive. done.
Qed.

Lemma strip_fence_start_suffix (s : jsstring) : ∃ pre, s = pre ++ strip_fence_start s.
Proof.
  unfold strip_fence_start. destruct (starts_with fence s); [|by exists []].
  cbn zeta. destruct (starts_with (lit "python") (drop 3 s)).
  - destruct (drop_spaces_suffix (drop 6 (drop 3 s))) as [pre Hpre].
    exists (take 3 s ++ take 6 (drop 3 s) ++ pre).
    rewrite <- !app_assoc, <- Hpre, !take_drop. done.
  - destruct (drop_spaces_suffix (drop 3 s)) as [pre Hpre].
    exists (take 3 s ++ pre). rewrite <- app_assoc, <- Hpre, take_drop. done.
Qed.

Lemma strip_fence_end_prefix (s : jsstring) : ∃ suf, s = strip_fence_end s ++ suf.
Proof.
  unfold strip_fence_end. destruct (ends_with fence s).
  - exists (drop (length s - 3) s). by rewrite take_drop.
  - exists []. by rewrite app_nil_r.
Qed.

(** X1: whatever the answer, the cleaned code has no blank at either end,
    and cleaning touches nothing inside it: the cleaned code is a contiguous
    piece of the answer, never longer than the answer. *)
Theorem cleaned_code_is_a_trimmed_piece_of_the_answer (code : jsstring) :
  trimmed (cleanGeneratedCode code) ∧
  (∃ pre suf, code = pre ++ cleanGeneratedCode code ++ suf) ∧
  (length (cleanGeneratedCode code) ≤ length code)%nat.
Proof.
  assert (Hin : ∃ pre suf, code = pre ++ cleanGeneratedCode code ++ suf).
  { rewrite cleanGeneratedCode_direct.
    destruct (strip_fence_start_suffix code) as [p1 H1].
    destruct (strip_fence_end_prefix (strip_fence_start code)) as [s2 H2].
    destruct (trim_infix (strip_fence_end (strip_fence_start code))) as (p3 & s3 & H3).
    exists (p1 ++ p3), (s3 ++ s2).
    rewrite H1 at 1. rewrite H2 at 1. rewrite H3 at 1.
    by rewrite <- !app_assoc. }
  split; [rewrite cleanGeneratedCode_direct; apply trim_trimmed|].
  split; [done|].
  destruct Hin as (pre & suf & H). rewrite H at 2. rewrite !length_app. lia.
Qed.

(** X2: an answer that neither starts nor ends with a fence is only trimmed;
    in particular a fence that comes after leading blanks, or before a final
    line break, is left in the code. *)
Theorem answer_without_outer_fence_is_only_trimmed (code : jsstring) :
  starts_with fence code = false → ends_with fence code = false →
  cleanGeneratedCode code = trim code.
Proof.
  intros Hs He. rewrite cleanGeneratedCode_direct.
  unfold strip_fence_start. rewrite Hs. unfold strip_fence_end. by rewrite He.
Qed.

Lemma answer_without_outer_fence_is_only_trimmed_witness :
  cleanGeneratedCode ([LF] ++ fenced (lit "python") (lit "x") ++ [LF]) =
    fenced (lit "python") (lit "x").
Proof.
  rewrite (answer_without_outer_fence_is_only_trimmed
             ([LF] ++ fenced (lit "python") (lit "x") ++ [LF])).
  - reflexivity.
  - reflexivity.
  - reflexivity.
Defined.

(** *** Escaping for the preview *)

Lemma replace_all_Chr (c : N) (by_ : jsstring) (i : nat) (s : jsstring) :
  replace_all_from false (Chr c) by_ i 0 s =
    flat_map (λ x, if c =? x then by_ else [x]) s.
Proof.
  revert i. induction s as [|x s IH]; intros i; [done|].
  cbn [replace_all_from rmatch flat_map]. unfold chr_eq.
  destruct (c =? x).
  - cbn [m_end]. destruct (Nat.eqb_spec (S i) i) as [Hi|_]; [lia|].
    replace (S i - i - 1)%nat with 0%nat by lia. by rewrite IH.
  - by rewrite IH.
Qed.

Lemma escaped_code_chars (code : jsstring) :
  escaped_code code = flat_map escape_char code.
Proof.
  unfold escaped_code, replace_all. rewrite !replace_all_Chr.
  induction code as [|c code IH]; [done|].
  cbn [flat_map]. rewrite flat_map_app, IH. f_equal.
  unfold escape_char. rewrite (N.eqb_sym 60 c).
  destruct (N.eqb_spec c 60) as [->|H60]; [done|].
  cbn [flat_map]. rewrite (N.eqb_sym 62 c). by rewrite app_nil_r.
Qed.

(** X3: the text put into the preview holds neither [<] nor [>], so the
    generated code cannot open or close an element of the page; characters
    other than these two are kept as they are, in order. *)
Theorem escaped_code_has_no_angle_bracket (code : jsstring) :
  (60 ∉ escaped_code code) ∧ (62 ∉ escaped_code code) ∧
  escaped_code code = flat_map escape_char code ∧
  (60 ∉ code → 62 ∉ code → escaped_code code = code).
Proof.
  rewrite escaped_code_chars.
  assert (Hno : ∀ c, (c = 60 ∨ c = 62) → c ∉ flat_map escape_char code).
  { intros c Hc. induction code as [|x code IH]; simpl.
    - apply not_elem_of_nil.
    - intros [Hin|Hin]%elem_of_app; [|done].
      unfold escape_char in Hin.
      destruct (N.eqb_spec x 60); [|destruct (N.eqb_spec x 62)].
      + vm_compute in Hin. 
        repeat (apply elem_of_cons in Hin as [->|Hin]; [destruct Hc; done|]).
        by apply elem_of_nil in Hin.
      + repeat (apply elem_of_cons in Hin as [->|Hin]; [destruct Hc; done|]).
        by apply elem_of_nil in Hin.
      + apply list_elem_of_singleton in Hin as ->. destruct Hc; done. }
  split; [apply Hno; by left|]. split; [apply Hno; by right|]. split; [done|].
  clear Hno. induction code as [|x code IH]; [done|].
  intros [H60a H60b]%not_elem_of_cons [H62a H62b]%not_elem_of_cons.
  simpl. rewrite (IH H60b H62b). unfold escape_char.
  destruct (N.eqb_spec x 60); [done|]. by destruct (N.eqb_spec x 62).
Qed.

Lemma escaped_code_has_no_angle_bracket_witness :
  escaped_code (lit "a = b") = lit "a = b".
Proof.
  apply (proj2 (proj2 (proj2 (escaped_code_has_no_angle_bracket (lit "a = b"))))).
  - vm_compute. intros H. 
    repeat (apply elem_of_cons in H as [H|H]; [discriminate H|]). by apply elem_of_nil in H.
  - intros H.
    repeat (apply elem_of_cons in H as [H|H]; [discriminate H|]). by apply elem_of_nil in H.
Defined.

(** X4: the ampersand is not escaped, so the escaping loses information:
    writing [&lt;] for every [<] of a code gives a different code with the
    same preview. *)
Theorem escaping_is_not_injective (code : jsstring) :
  60 ∈ code →
  let code' := replace_all false (Chr 60) (lit "&lt;") code in
  code' ≠ code ∧ escaped_code code' = escaped_code code.
Proof.
  intros Hin. cbn zeta. unfold replace_all. rewrite replace_all_Chr. split.
  - intros Heq. 
    assert (Hno : 60 ∉ flat_map (λ x : N, if 60 =? x then lit "&lt;" else [x]) code).
    { clear. induction code as [|x code IH]; cbn [flat_map]; [apply not_elem_of_nil|].
      intros [H|H]%elem_of_app; [|done].
      destruct (N.eqb_spec 60 x).
      - repeat (apply elem_of_cons in H as [H|H]; [discriminate H|]).
        by apply elem_of_nil in H.
      - apply list_elem_of_singleton in H. done. }
    by rewrite Heq in Hno.
  - rewrite !escaped_code_chars. clear Hin.
    induction code as [|x code IH]; [done|].
    cbn [flat_map]. rewrite flat_map_app, IH. f_equal.
    destruct (N.eqb_spec 60 x) as [<-|H60]; [reflexivity|].
    cbn [flat_map]. apply app_nil_r.
Qed.

Lemma escaping_is_not_injective_witness :
  escaped_code (lit "a &lt; b") = escaped_code (lit "a < b").
Proof.
  apply (escaping_is_not_injective (lit "a < b")).
  vm_compute. right. right. left.
Defined.

(** ** More on inline generation *)

Module InlineMore.
Import Inline InlineFacts InlineChecks.

(** What [process] returns: nothing, or the one request of the first line
    that fires. *)
Lemma process_cases (h : host) (doc : doc_id) (changes : list change)
    (pl : gset jsstring) :
  let r := process h doc changes pl in
  (actions r = [] ∧ processed r = pl ∧ (next r = Finished ∨ next r = Thrown)) ∨
  ∃ L idx rest q,
    triggers L q ∧ (L ∉ pl) ∧
    r = {| processed := {[L]} ∪ pl;
           actions := [ShowInformationMessage (generating q);
                       Fetch (PostChat q (parent_root_of h doc))];
           next := Suspended (AwaitFetch doc L idx rest) |}.
Proof.
  induction changes as [|c rest IH]; [left; by eauto|].
  cbn [process]. cbn zeta in *.
  destruct (negb (includes LF (text c))); [done|].
  destruct (lineAt h doc (line c)) as [lineText|]; [|left; by eauto].
  destruct (decide (lineText ∈ pl)); [done|].
  destruct (match1 true COMMENT_TRIGGER lineText) as [g|] eqn:Hm; [|done].
  destruct (trim g) as [|q0 q] eqn:Hq; [done|].
  right. exists lineText, (line c), rest, (q0 :: q). split; [|done].
  exists g. by rewrite Hm, Hq.
Qed.

Lemma triggers_trimmed (L q : jsstring) : triggers L q → q ≠ [] ∧ trimmed q.
Proof. intros (g & _ & <- & Hne). split; [done|]. apply trim_trimmed. Qed.

Lemma process_sends_one (h : host) (doc : doc_id) (changes : list change)
    (pl : gset jsstring) :
  sends_one (process h doc changes pl).
Proof.
  destruct (process_cases h doc changes pl) as [(Ha & _ & _) | (L & idx & rest & q & Htr & _ & ->)].
  - unfold sends_one. rewrite Ha. simpl. split; [lia|].
    intros q root Hin. by apply elem_of_nil in Hin.
  - unfold sends_one. simpl. split; [lia|].
    intros q' root [= -> ->]%list_elem_of_singleton.
    destruct (triggers_trimmed L q Htr). split; [done|]. split; [done|]. by eauto 10.
Qed.

Lemma prepend_sends_one (a : list action) (r : result) :
  chat_calls a = [] → sends_one r → sends_one (prepend a r).
Proof.
  intros Ha [H1 H2]. unfold sends_one, prepend. simpl.
  unfold chat_calls in *. rewrite omap_app, Ha. simpl. done.
Qed.

Lemma empty_sends_one (pl : gset jsstring) (n : next_step) :
  sends_one {| processed := pl; actions := []; next := n |}.
Proof. split; simpl; [lia|]. intros q root Hin. by apply elem_of_nil in Hin. Qed.

Lemma catch_sends_one (h : host) (doc : doc_id) (L : jsstring) (rest : list change)
    (m : jsstring) (pl : gset jsstring) :
  sends_one (catch h doc L rest m pl).
Proof. unfold catch. apply prepend_sends_one; [done|apply process_sends_one]. Qed.

Lemma handler_sends_one (h : host) (ev : event) (pl : gset jsstring) :
  sends_one (onDidChangeTextDocument h ev pl).
Proof.
  unfold onDidChangeTextDocument.
  destruct (activeTextEditor h) as [doc|]; [|apply empty_sends_one].
  destruct (decide (doc = document ev)); [|apply empty_sends_one].
  apply process_sends_one.
Qed.

Lemma fetch_settled_sends_one (h : host) (doc : doc_id) (L : jsstring) (idx : nat)
    (rest : list change) (o : fetch_outcome) (pl : gset jsstring) :
  sends_one (fetch_settled h doc L idx rest o pl).
Proof.
  unfold fetch_settled. destruct o as [e|res]; [apply catch_sends_one|].
  destruct (ok res); [apply empty_sends_one|apply catch_sends_one].
Qed.

Lemma json_settled_sends_one (h : host) (res : response) (doc : doc_id) (L : jsstring)
    (idx : nat) (rest : list change) (pl : gset jsstring) :
  sends_one (json_settled h res doc L idx rest pl).
Proof.
  unfold json_settled. destruct (body res) as [e|e|[a|e]]; try apply catch_sends_one.
  apply prepend_sends_one; [done|apply process_sends_one].
Qed.

(** X5: every segment of the handler sends at most one chat call, and then
    waits for it: the question sent is not empty, has no blank at either end,
    and is the description of the line the handler is suspended on. *)
Theorem each_segment_sends_one_request :
  (∀ (h : host) (ev : event) (pl : gset jsstring),
     sends_one (onDidChangeTextDocument h ev pl)) ∧
  (∀ (h : host) (doc : doc_id) (L : jsstring) (idx : nat) (rest : list change)
     (o : fetch_outcome) (pl : gset jsstring),
     sends_one (fetch_settled h doc L idx rest o pl)) ∧
  (∀ (h : host) (res : response) (doc : doc_id) (L : jsstring) (idx : nat)
     (rest : list change) (pl : gset jsstring),
     sends_one (json_settled h res doc L idx rest pl)).
Proof.
  split; [apply handler_sends_one|].
  split; [apply fetch_settled_sends_one|apply json_settled_sends_one].
Qed.

(** X6: an event for a document other than the one of the active editor, or
    whose changes hold no line break, sends nothing, shows nothing and leaves
    the set as it was. *)
Theorem edits_without_line_break_are_ignored (h : host) (ev : event)
    (pl : gset jsstring) :
  activeTextEditor h ≠ Some (document ev) ∨
  Forall (λ c, includes LF (text c) = false) (contentChanges ev) →
  onDidChangeTextDocument h ev pl = quiet pl.
Proof.
  intros Hcase. unfold onDidChangeTextDocument.
  destruct (activeTextEditor h) as [doc|]; [|done].
  destruct (decide (doc = document ev)) as [->|]; [|done].
  destruct Hcase as [Hne|Hall]; [done|].
  induction Hall as [|c rest Hc _ IH]; [done|].
  cbn [process]. by rewrite Hc.
Qed.

Lemma edits_without_line_break_are_ignored_witness :
  onDidChangeTextDocument host0
    {| document := 0%nat; contentChanges := [{| text := lit "x"; line := 0%nat |}] |}
    ∅ = quiet ∅.
Proof.
  apply edits_without_line_break_are_ignored.
  right. constructor; [reflexivity|constructor].
Defined.

Lemma match1_no_marker (L : jsstring) :
  forallb not_marker L = true → match1 true COMMENT_TRIGGER L = None.
Proof.
  intros H. unfold match1, exec.
  rewrite <- (app_nil_r L), search_trigger_skip by done. reflexivity.
Qed.

Lemma drop_spaces_blank (s : jsstring) : forallb is_space s = true → drop_spaces s = [].
Proof.
  induction s as [|c s IH]; simpl; [done|].
  intros [Hc Hs]%andb_true_iff. rewrite Hc. by apply IH.
Qed.

Lemma silent_line_skipped (L : jsstring) :
  silent_line L →
  match1 true COMMENT_TRIGGER L = None ∨
  ∃ g, match1 true COMMENT_TRIGGER L = Some g ∧ trim g = [].
Proof.
  intros [Hno | (before & marker & ws & word & ws1 & blanks & -> & Hb & Hm & Hws & Hw
                 & Hl & Hne & Hws1 & Hbl & Hdot)].
  - left. by apply match1_no_marker.
  - right. exists (drop_spaces blanks).
    split; [by apply match1_trigger_shape|].
    by rewrite drop_spaces_blank.
Qed.

(** X7: line-break edits on lines that hold neither [#] nor [/], or that
    stop after the word [generate] and blanks, send nothing and are not
    remembered, so the same line can ask later once a description is typed. *)
Theorem silent_lines_are_not_remembered (h : host) (doc : doc_id)
    (changes : list change) (pl : gset jsstring) :
  Forall (λ c, ∃ L, lineAt h doc (line c) = Some L ∧ silent_line L) changes →
  process h doc changes pl = quiet pl.
Proof.
  induction 1 as [|c rest (L & Hline & Hsilent) _ IH]; [done|].
  cbn [process]. rewrite Hline.
  destruct (negb (includes LF (text c))); [done|].
  destruct (decide (L ∈ pl)); [done|].
  destruct (silent_line_skipped L Hsilent) as [-> | (g & -> & ->)]; done.
Qed.

Lemma silent_lines_are_not_remembered_witness :
  process
    {| activeTextEditor := Some 0%nat;
       lineAt := λ _ _, Some (lit "# generate  ");
       workspaceFolder := λ _, None |}
    0%nat [{| text := [LF]; line := 0%nat |}] ∅ = quiet ∅.
Proof.
  apply silent_lines_are_not_remembered.
  constructor; [|constructor].
  exists (lit "# generate  "). split; [reflexivity|].
  right. exists [], (lit "#"), (lit " "), (lit "generate"), (lit " "), (lit " ").
  repeat split; try reflexivity; try (by left); done.
Defined.

(** *** Invariants of the log *)

Lemma step_segment (s s' : sys) :
  step s s' →
  ∃ (others : list task) (pl0 : gset jsstring) (r : result),
    s' = commit s others r ∧ pl0 ⊆ processedLines s ∧ sends_one r ∧
    (processed r = pl0 ∨
     (∃ L q, triggers L q ∧ (L ∉ pl0) ∧ processed r = {[L]} ∪ pl0 ∧
             length (chat_calls (actions r)) = 1%nat)
     ∨ processed r = processedLines s).
Proof.
  assert (Hproc : ∀ h doc changes (pl0 : gset jsstring) a,
    chat_calls a = [] →
    let r := prepend a (process h doc changes pl0) in
    processed r = pl0 ∨
    ∃ L q, triggers L q ∧ (L ∉ pl0) ∧ processed r = {[L]} ∪ pl0 ∧
           length (chat_calls (actions r)) = 1%nat).
  { intros h doc changes pl0 a Ha. cbn zeta.
    destruct (process_cases h doc changes pl0)
      as [(_ & Hp & _) | (L & idx & rest & q & Htr & Hnew & ->)].
    - by left.
    - right. exists L, q. split; [done|]. split; [done|]. split; [done|].
      simpl. unfold chat_calls in *. rewrite omap_app, Ha. done. }
  pose proof handler_sends_one as S1. pose proof fetch_settled_sends_one as S2.
  pose proof json_settled_sends_one as S3.
  intros [h ev | h o l1 l2 doc L idx rest Hpool | h l1 l2 res doc L idx rest Hpool].
  - exists (pool s), (processedLines s), (onDidChangeTextDocument h ev (processedLines s)).
    split; [done|]. split; [done|]. split; [apply S1|].
    unfold onDidChangeTextDocument.
    destruct (activeTextEditor h) as [doc|]; [|by left].
    destruct (decide (doc = document ev)); [|by left].
    destruct (Hproc h doc (contentChanges ev) (processedLines s) [] eq_refl) as [H|H];
      [by left|right; by left].
  - exists (l1 ++ l2), (processedLines s ∖ {[L]}),
      (fetch_settled h doc L idx rest o (processedLines s)).
    split; [done|]. split; [apply subseteq_difference_l; done|]. split; [apply S2|].
    unfold fetch_settled.
    assert (Hc : ∀ m, let r := catch h doc L rest m (processedLines s) in
              processed r = processedLines s ∖ {[L]} ∨
              ∃ L0 q, triggers L0 q ∧ (L0 ∉ processedLines s ∖ {[L]}) ∧
                      processed r = {[L0]} ∪ processedLines s ∖ {[L]} ∧
                      length (chat_calls (actions r)) = 1%nat).
    { intros m. apply (Hproc h doc rest (processedLines s ∖ {[L]})). done. }
    destruct o as [e|res].
    + destruct (Hc e) as [H|H]; [by left|right; by left].
    + destruct (ok res).
      * right. by right.
      * destruct (Hc (server_error res)) as [H|H]; [by left|right; by left].
  - set (r := json_settled h res doc L idx rest (processedLines s)).
    assert (Hj : ∃ pl0 : gset jsstring, pl0 ⊆ processedLines s ∧
              (processed r = pl0 ∨
               ∃ L0 q, triggers L0 q ∧ (L0 ∉ pl0) ∧ processed r = {[L0]} ∪ pl0 ∧
                       length (chat_calls (actions r)) = 1%nat)).
    { unfold r, json_settled, catch.
      destruct (body res) as [e|e|[a|e]].
      1,2,4: exists (processedLines s ∖ {[L]});
        (split; [by apply subseteq_difference_l|]);
        by apply (Hproc h doc rest (processedLines s ∖ {[L]})).
      exists (processedLines s). split; [done|].
      by apply (Hproc h doc rest (processedLines s)). }
    destruct Hj as (pl0 & Hsub & Hj).
    exists (l1 ++ l2), pl0, r.
    split; [done|]. split; [done|]. split; [apply S3|].
    destruct Hj as [H|H]; [by left|right; by left].
Qed.

(** X8: in every state the event loop can reach, the set holds only lines
    that fire the trigger, it never has more entries than chat calls were
    sent, and every question sent is non-empty with no blank at either end. *)
Theorem set_holds_only_requested_lines (s : sys) :
  reachable s →
  (∀ L, L ∈ processedLines s → ∃ q, triggers L q) ∧
  (size (processedLines s) ≤ length (chat_calls (log s)))%nat ∧
  Forall (λ c, c.1 ≠ [] ∧ trimmed c.1) (chat_calls (log s)).
Proof.
  intros Hreach.
  refine (rtc_ind_r (R:=step)
            (λ s, (∀ L, L ∈ processedLines s → ∃ q, triggers L q) ∧
                  (size (processedLines s) ≤ length (chat_calls (log s)))%nat ∧
                  Forall (λ c, c.1 ≠ [] ∧ trimmed c.1) (chat_calls (log s)))
            init _ _ s Hreach).
  - split; [intros L HL; by apply not_elem_of_empty in HL|]. split; [done|constructor].
  - clear s Hreach. intros s s' _ Hstep (Htr & Hsize & Hgood).
    destruct (step_segment s s' Hstep) as (others & pl0 & r & -> & Hsub & [Hone Hq] & Hp).
    assert (Hsz0 : (size pl0 ≤ size (processedLines s))%nat) by by apply subseteq_size.
    unfold commit. cbn [processedLines log].
    unfold chat_calls in *. rewrite omap_app, length_app.
    split; [|split].
    + intros L HL. destruct Hp as [Hp | [(L0 & q & Ht & _ & Hp & _) | Hp]];
        rewrite Hp in HL.
      * apply Htr. by apply Hsub.
      * apply elem_of_union in HL as [->%elem_of_singleton | HL]; [by exists q|].
        apply Htr. by apply Hsub.
      * by apply Htr.
    + destruct Hp as [Hp | [(L0 & q & Ht & Hnew & Hp & Hlen) | Hp]]; rewrite Hp.
      * lia.
      * rewrite size_union by (by apply disjoint_singleton_l).
        rewrite size_singleton. unfold chat_calls in Hlen. lia.
      * lia.
    + apply Forall_app. split; [done|].
      apply Forall_forall. intros [q root] Hin. simpl.
      destruct (Hq q root Hin) as (H1 & H2 & _). done.
Qed.

Lemma set_holds_only_requested_lines_witness :
  (size (processedLines sys2) ≤ length (chat_calls (log sys2)))%nat ∧
  ∃ q, triggers line0 q.
Proof.
  destruct (set_holds_only_requested_lines sys2 reachable_sys2) as (Htr & Hsize & _).
  split; [exact Hsize|]. apply Htr. vm_compute. reflexivity.
Defined.

Lemma process_no_index (h : host) (doc : doc_id) (changes : list change)
    (pl : gset jsstring) :
  Forall not_index (actions (process h doc changes pl)).
Proof.
  destruct (process_cases h doc changes pl)
    as [(-> & _ & _) | (L & idx & rest & q & _ & _ & ->)]; [constructor|].
  simpl. repeat constructor; intros root; discriminate.
Qed.

Lemma step_no_index (s s' : sys) :
  step s s' → Forall not_index (log s) → Forall not_index (log s').
Proof.
  assert (Hc : ∀ h doc L rest m pl, Forall not_index (actions (catch h doc L rest m pl))).
  { intros. unfold catch, prepend. simpl. constructor; [intros root; discriminate|].
    apply process_no_index. }
  intros Hstep Hlog.
  destruct Hstep as [h ev | h o l1 l2 doc L idx rest Hp | h l1 l2 res doc L idx rest Hp];
    unfold commit; cbn [log]; apply Forall_app; (split; [done|]).
  - unfold onDidChangeTextDocument.
    destruct (activeTextEditor h) as [doc|]; [|constructor].
    destruct (decide (doc = document ev)); [|constructor]. apply process_no_index.
  - unfold fetch_settled. destruct o as [e|res]; [apply Hc|].
    destruct (ok res); [constructor|apply Hc].
  - unfold json_settled. destruct (body res) as [e|e|[a|e]]; try apply Hc.
    unfold prepend. simpl. constructor; [intros root; discriminate|].
    apply process_no_index.
Qed.

(** X9: inline generation never sends an index call: in every state its
    event loop can reach, the log holds no request to [/index].  And when the
    document of the active editor lies in no workspace folder the question is
    still sent, with the empty string as [parent_root]. *)
Theorem inline_generation_never_indexes :
  (∀ s : sys, reachable s → ∀ root, Fetch (PostIndex root) ∉ log s) ∧
  (∀ (h : host) (ev : event) (c : change) (rest : list change) (pl : gset jsstring)
     (lineText query : jsstring),
     activeTextEditor h = Some (document ev) →
     contentChanges ev = c :: rest →
     includes LF (text c) = true →
     lineAt h (document ev) (line c) = Some lineText →
     lineText ∉ pl →
     triggers lineText query →
     workspaceFolder h (document ev) = None →
     chat_calls (actions (onDidChangeTextDocument h ev pl)) = [(query, [])]).
Proof.
  split.
  - intros s Hreach root Hin.
    assert (Hall : Forall not_index (log s)).
    { refine (rtc_ind_r (R:=step) (λ s, Forall not_index (log s)) init _ _ s Hreach).
      - constructor.
      - intros y z _ Hs Hy. by apply (step_no_index y z). }
    rewrite Forall_forall in Hall. by apply (Hall _ Hin root).
  - intros h ev c rest pl L q Hed Hch Hnl Hline Hnew Htr Hf.
    rewrite (handler_trigger h ev c rest pl L q) by done.
    simpl. unfold parent_root_of. by rewrite Hf.
Qed.

Lemma inline_generation_never_indexes_witness :
  (Fetch (PostIndex (lit "/proj")) ∉ log sys2) ∧
  chat_calls
    (actions
       (onDidChangeTextDocument
          {| activeTextEditor := Some 0%nat; lineAt := λ _ _, Some line0;
             workspaceFolder := λ _, None |}
          event0 ∅)) = [(lit "a function that adds two numbers", [])].
Proof.
  split.
  - apply (proj1 inline_generation_never_indexes sys2 reachable_sys2).
  - apply (proj2 inline_generation_never_indexes
             {| activeTextEditor := Some 0%nat; lineAt := λ _ _, Some line0;
                workspaceFolder := λ _, None |}
             event0 {| text := [LF]; line := 0%nat |} [] ∅ line0
             (lit "a function that adds two numbers")).
    + reflexivity.
    + reflexivity.
    + reflexivity.
    + reflexivity.
    + vm_compute. congruence.
    + exists (lit "a function that adds two numbers").
      split; [vm_compute; reflexivity|]. split; [vm_compute; reflexivity|done].
    + reflexivity.
Defined.

(** *** One generation from start to end *)

Lemma add_then_delete (L : jsstring) (pl : gset jsstring) :
  L ∉ pl → ({[L]} ∪ pl) ∖ {[L]} = pl.
Proof.
  intros Hnew. apply set_eq. intros x.
  rewrite elem_of_difference, elem_of_union, !elem_of_singleton. split.
  - intros [[->|Hx] Hne]; done.
  - intros Hx. split; [by right|]. intros ->. done.
Qed.

(** X17: an edit with one line break on a fresh trigger line, run to its
    end.  When the call succeeds with a string answer, the handler shows the
    message, sends the one chat call and opens the preview of the cleaned
    answer for the edited line, and the line stays in the set.  When the
    call fails, it shows the error instead and the set is exactly what it was
    before the edit. *)
Theorem generation_previews_or_restores (h : host) (ev : event) (c : change)
    (pl : gset jsstring) (lineText query : jsstring) :
  activeTextEditor h = Some (document ev) →
  contentChanges ev = [c] →
  includes LF (text c) = true →
  lineAt h (document ev) (line c) = Some lineText →
  lineText ∉ pl →
  triggers lineText query →
  let sent := [ShowInformationMessage (generating query);
               Fetch (PostChat query (parent_root_of h (document ev)))] in
  (∀ res answer, ok res = true → body res = JsonData (VString answer) →
     generation h ev (Resolved res) pl =
       {| processed := {[lineText]} ∪ pl;
          actions := sent ++ [Preview (line c) (cleanGeneratedCode answer)];
          next := Finished |}) ∧
  (∀ o, fetch_failed o →
     generation h ev o pl =
       {| processed := pl;
          actions := sent ++ [ShowErrorMessage (generation_failed (failure_message o))];
          next := Finished |}).
Proof.
  intros Hed Hch Hnl Hline Hnew Htr. cbn zeta.
  unfold generation. rewrite (handler_trigger h ev c [] pl lineText query) by done.
  split.
  - intros res answer Hok Hbody.
    unfold then_settle at 2. cbn [next actions processed].
    unfold fetch_settled. rewrite Hok.
    unfold then_settle, prepend. cbn [next actions processed].
    unfold json_settled. rewrite Hbody. reflexivity.
  - intros o Hfail.
    unfold then_settle at 2. cbn [next actions processed].
    rewrite catch_eq by done.
    unfold then_settle, prepend. cbn [next actions processed process app].
    by rewrite add_then_delete.
Qed.

Lemma generation_previews_or_restores_witness :
  generation host0 event0 (Resolved code0) ∅ =
    {| processed := {[line0]} ∪ ∅;
       actions := [ShowInformationMessage (generating (lit "a function that adds two numbers"));
                   Fetch (PostChat (lit "a function that adds two numbers") (lit "/proj"));
                   Preview 0 (lit "def add(a,b): return a+b")];
       next := Finished |} ∧
  processed (generation host0 event0 (Resolved unavailable0) ∅) = ∅.
Proof.
  destruct (generation_previews_or_restores host0 event0 {| text := [LF]; line := 0%nat |}
              ∅ line0 (lit "a function that adds two numbers")) as [Hs Hf].
  - reflexivity.
  - reflexivity.
  - reflexivity.
  - reflexivity.
  - vm_compute. congruence.
  - exists (lit "a function that adds two numbers").
    split; [vm_compute; reflexivity|]. split; [vm_compute; reflexivity|done].
  - split.
    + rewrite (Hs code0 (fenced (lit "python") (lit "def add(a,b): return a+b")))
        by reflexivity.
      reflexivity.
    + rewrite (Hf (Resolved unavailable0)) by reflexivity. reflexivity.
Defined.

End InlineMore.

(** ** More on the chat handler *)

Module ChatMore.

Import Chat ChatFacts.
Local Open Scope Z_scope.

(** Case analysis on the host and on how the calls settle. *)
Ltac host_cases h msg :=
  unfold submission, Legacy.submission, onDidReceiveMessage, Legacy.onDidReceiveMessage,
    submit;
  destruct (question msg) as [|q0 qs] eqn:Eq;
    [try congruence
    |destruct (api_throws h) eqn:Ea;
       [|destruct (detect_parent h) as [|p0 ps] eqn:Ep]].

Lemma one_answer (h : host) (now : Z) (panel : nat) (msg : message)
    (oi oc : fetch_outcome) (m : gmap jsstring Z) :
  question msg ≠ [] →
  next (submission h now panel msg oi oc m) = None ∧
  (∃ a, answers (actions (submission h now panel msg oi oc m)) = [(panel, id msg, a)]) ∧
  (length (index_calls (actions (submission h now panel msg oi oc m))) ≤ 1)%nat ∧
  (length (chat_calls (actions (submission h now panel msg oi oc m))) ≤ 1)%nat.
Proof.
  intros Hq. host_cases h msg.
  1,2: (split; [done|]); (split; [by eexists|]); simpl; lia.
  destruct (shouldReindex m (p0 :: ps) now);
    settle_cases oi oc; (split; [done|]); (split; [by eexists|]); simpl; lia.
Qed.






Lemma start_frame (h : host) (now : Z) (panel : nat) (msg : message)
    (m : gmap jsstring Z) :
  indexed (onDidReceiveMessage h now panel msg m) = m.
Proof.
  unfold onDidReceiveMessage, submit.
  destruct (question msg); [done|]. destruct (api_throws h); [done|].
  destruct (detect_parent h); [done|]. by destruct (shouldReindex _ _ _).
Qed.

(** X13: the chat handler does not look at the response of its index call.
    When the backend answers the index call with any status, also outside
    2xx, the question is still sent and the handler, run to its end with no
    other handler in between, leaves the root marked with the time at which
    the question arrived.  In the event loop the resumed handler stores that
    time as the entry of the root whatever entry is there, also a later one
    written in between.  The older revision sends the question in the same
    way. *)
Theorem index_status_is_ignored_by_the_chat_handler (h : host) (now : Z) (panel : nat)
    (msg : message) (res : response) (oc : fetch_outcome) (m : gmap jsstring Z)
    (root : jsstring) :
  question msg ≠ [] → api_throws h = false → detect_parent h = root → root ≠ [] →
  shouldReindex m root now = true →
  let r := submission h now panel msg (Resolved res) oc m in
  chat_calls (actions r) = [(question msg, root)] ∧
  indexed r = <[root := now]> m ∧
  (∀ (s : ChatLoop.sys) (l1 l2 : list task) (clock : Z) (oc' : fetch_outcome),
     ChatLoop.pool s = l1 ++ ChatIndex panel msg root now :: l2 →
     let s' := ChatLoop.commit s (l1 ++ l2)
                 (settle clock (Resolved res) oc' (ChatIndex panel msg root now)
                    (ChatLoop.lastIndexed s)) in
     ChatLoop.lastIndexed s' = <[root := now]> (ChatLoop.lastIndexed s) ∧
     ChatLoop.log s' =
       ChatLoop.log s ++ [PostMessage panel (Status (id msg) Thinking);
                          Fetch (PostChat (question msg) root)]) ∧
  chat_calls (Legacy.actions (Legacy.submission h panel msg (Resolved res) oc)) =
    [(question msg, root)].
Proof.
  intros Hq Ha Hp Hne Hs. cbn zeta.
  assert (Hr : chat_calls (actions (submission h now panel msg (Resolved res) oc m)) =
                 [(question msg, root)] ∧
               indexed (submission h now panel msg (Resolved res) oc m) =
                 markIndexed root now m).
  { unfold submission. rewrite onDidReceiveMessage_submit by (done || by rewrite Hp).
    rewrite Hp, submit_indexes by done.
    unfold and_then, settle, index_settled, chat_settled, json_settled, catch. simpl.
    destruct oc as [?|r]; simpl;
      [|destruct (ok r); simpl; [destruct (body r); simpl|]]; done. }
  destruct Hr as [Hc Hi]. split; [done|]. split; [done|]. split; [done|].
  unfold Legacy.submission, Legacy.onDidReceiveMessage. rewrite Ha, Hp.
  destruct (question msg) as [|q0 qs] eqn:Eq; [done|].
  destruct root as [|c root']; [done|].
  unfold Legacy.and_then, Legacy.settle, Legacy.index_settled, Legacy.chat_settled,
    Legacy.json_settled, Legacy.catch. simpl.
  destruct oc as [?|r]; simpl;
    [|destruct (ok r); simpl; [destruct (body r); simpl|]]; by rewrite ?Eq.
Qed.

Lemma index_status_is_ignored_by_the_chat_handler_witness :
  chat_calls (actions (submission folder_host 1700000000000 0 msg0 (Resolved failure0)
                         (Resolved answer0) ∅)) = [(lit "why", root0)] ∧
  indexed (submission folder_host 1700000000000 0 msg0 (Resolved failure0)
             (Resolved answer0) ∅) = <[root0 := 1700000000000]> ∅.
Proof.
  destruct (index_status_is_ignored_by_the_chat_handler folder_host 1700000000000 0 msg0
              failure0 (Resolved answer0) ∅ root0) as (H1 & H2 & _).
  - vm_compute. congruence.
  - reflexivity.
  - reflexivity.
  - vm_compute. congruence.
  - reflexivity.
  - split; [exact H1 | exact H2].
Defined.

End ChatMore.

(** ** The event loop of the watcher and the chat handlers *)

Module LoopFacts.

Import Chat ChatFacts ChatMore ChatLoop.
Local Open Scope Z_scope.

(** The roots of the index calls of a log. *)
Lemma index_calls_app (a b : list action) :
  index_calls (a ++ b) = index_calls a ++ index_calls b.
Proof. unfold index_calls. apply omap_app. Qed.

Lemma index_call_in_log (root : jsstring) (l : list action) :
  root ∈ index_calls l ↔ Fetch (PostIndex root) ∈ l.
Proof.
  unfold index_calls. rewrite list_elem_of_omap. split.
  - intros (x & Hx & Hr). destruct x as [[r|q r]|p pm]; simplify_eq. done.
  - intros H. by exists (Fetch (PostIndex root)).
Qed.

Lemma indexed_first_app (seen : gset jsstring) (l a : list action) :
  indexed_first seen l = true →
  indexed_first (list_to_set (index_calls l) ∪ seen) a = true →
  indexed_first seen (l ++ a) = true.
Proof.
  revert seen. induction l as [|x l IH]; intros seen Hl Ha.
  - simpl in *. by rewrite (left_id_L ∅ (∪)) in Ha.
  - destruct x as [[r|q r]|p pm]; cbn [app indexed_first] in *.
    + apply IH; [done|].
      change (index_calls (Fetch (PostIndex r) :: l)) with (r :: index_calls l) in Ha.
      cbn [list_to_set] in Ha.
      replace (list_to_set (index_calls l) ∪ ({[r]} ∪ seen))
        with ({[r]} ∪ list_to_set (index_calls l) ∪ seen); [done|].
      rewrite (comm_L (∪) {[r]} (list_to_set (index_calls l))).
      by rewrite <- (assoc_L (∪)).
    + apply andb_true_iff in Hl as [Hr Hl]. rewrite Hr. by apply IH.
    + by apply IH.
Qed.

Lemma indexed_first_sound (seen : gset jsstring) (l l1 l2 : list action)
    (q root : jsstring) :
  indexed_first seen l = true →
  l = l1 ++ Fetch (PostChat q root) :: l2 →
  root ∈ seen ∨ Fetch (PostIndex root) ∈ l1.
Proof.
  revert seen l. induction l1 as [|x l1 IH]; intros seen l Hl ->.
  - simpl in Hl. apply andb_true_iff in Hl as [Hr _]. left. by apply bool_decide_eq_true in Hr.
  - destruct x as [[r|q' r]|p pm]; cbn [app indexed_first] in Hl.
    + destruct (IH _ _ Hl eq_refl) as [Hin|Hin].
      * apply elem_of_union in Hin as [->%elem_of_singleton|Hin]; [right; by left|by left].
      * right. by right.
    + apply andb_true_iff in Hl as [_ Hl].
      destruct (IH _ _ Hl eq_refl) as [Hin|Hin]; [by left|right; by right].
    + destruct (IH _ _ Hl eq_refl) as [Hin|Hin]; [by left|right; by right].
Qed.

Lemma in_order_commit (s : sys) (others : list task) (r : result) :
  in_order s → (∀ t, t ∈ others → t ∈ pool s) →
  adds_in_order (index_calls (log s)) (lastIndexed s) r →
  in_order (commit s others r).
Proof.
  intros (Hlog & Hmap & Hpool) Hothers (Ha & Hm & Hn).
  unfold in_order, commit. cbn [log lastIndexed pool].
  rewrite index_calls_app. split; [|split].
  - apply indexed_first_app; [done|]. by rewrite (right_id_L ∅ (∪)).
  - intros root Hr. apply elem_of_app.
    destruct (Hm root Hr) as [H|H]; left; [by apply Hmap|done].
  - intros t root [Ht|Ht]%elem_of_app Hi; apply elem_of_app.
    + left. by apply (Hpool t root); [apply Hothers|].
    + right. destruct (next r) as [t'|]; simpl in Ht.
      * apply list_elem_of_singleton in Ht as ->. by apply (Hn t').
      * by apply elem_of_nil in Ht.
Qed.

Lemma skipped_root_is_marked (m : gmap jsstring Z) (root : jsstring) (now : Z) :
  60000 < now → shouldReindex m root now = false → is_Some (m !! root).
Proof.
  intros Hnow Hs. apply shouldReindex_false in Hs.
  destruct (m !! root); [by eexists|]. simpl in Hs. lia.
Qed.

(** The segment leaves no index call in flight. *)
Ltac no_index_in_flight :=
  let Hn := fresh in
  let Hi := fresh in
  intros ? ? Hn Hi; simpl in Hn;
  first [discriminate Hn | injection Hn as <-; discriminate Hi].

Lemma step_in_order (now : Z) (s s' : sys) :
  60000 < now → step now s s' → in_order s → in_order s'.
Proof.
  intros Hnow Hstep Hinv. pose proof Hinv as (Hlog & Hmap & Hpool).
  destruct Hstep as [h uri | h panel msg | oi oc l1 l2 t Hp].
  - apply in_order_commit; [done|done|].
    unfold onDidCreate. destruct (getWorkspaceFolder h uri) as [fs|].
    + split; [done|]. split; [intros ? Hx; left; exact Hx|]. simpl.
      intros t root [= <-] [= <-]. unfold index_calls. simpl. by left.
    + split; [done|]. split; [intros ? Hx; left; exact Hx|no_index_in_flight].
  - apply in_order_commit; [done|done|].
    unfold onDidReceiveMessage.
    destruct (question msg);
      [split; [done|split; [intros ? Hx; left; exact Hx|no_index_in_flight]]|].
    destruct (api_throws h);
      [split; [done|split; [intros ? Hx; left; exact Hx|no_index_in_flight]]|].
    destruct (detect_parent h) as [|p0 ps];
      [split; [done|split; [intros ? Hx; left; exact Hx|no_index_in_flight]]|].
    unfold submit. destruct (shouldReindex _ _ _) eqn:Hs.
    + split; [done|]. split; [intros ? Hx; left; exact Hx|]. simpl.
      intros t root [= <-] [= <-]. unfold index_calls. simpl. by left.
    + split; [|split; [intros ? Hx; left; exact Hx|no_index_in_flight]].
      simpl.
      apply andb_true_iff. split; [|done]. apply bool_decide_eq_true.
      apply elem_of_list_to_set. apply Hmap. by apply (skipped_root_is_marked _ _ now).
  - assert (Ht : t ∈ pool s) by (rewrite Hp; apply elem_of_app; right; by left).
    apply in_order_commit; [done| |].
    { intros t' Ht'. rewrite Hp.
      apply elem_of_app in Ht' as [?|?]; apply elem_of_app; [by left|right; by right]. }
    assert (Hmark : ∀ root t0, root ∈ index_calls (log s) →
              ∀ r, is_Some (markIndexed root t0 (lastIndexed s) !! r) →
                   is_Some (lastIndexed s !! r) ∨ r ∈ index_calls (log s)).
    { intros root t0 Hroot r. unfold markIndexed.
      destruct (decide (root = r)) as [<-|Hne]; [by right|].
      rewrite lookup_insert_ne by done. by left. }
    destruct t as [fs|p msg parent t0|p msg|p msg res]; simpl.
    + unfold watcher_settled. destruct oi as [e|res].
      * split; [done|]. split; [intros ? Hx; left; exact Hx|no_index_in_flight].
      * split; [done|]. split; [|no_index_in_flight]. simpl.
        apply Hmark. by apply (Hpool (WatcherIndex fs)).
    + unfold index_settled, catch. destruct oi as [e|res].
      * split; [done|]. split; [intros ? Hx; left; exact Hx|no_index_in_flight].
      * assert (Hparent : parent ∈ index_calls (log s))
          by by apply (Hpool (ChatIndex p msg parent t0)).
        split; [|split; [by apply Hmark|no_index_in_flight]]. simpl.
        apply andb_true_iff. split; [|done]. apply bool_decide_eq_true.
        by apply elem_of_list_to_set.
    + unfold chat_settled, catch. destruct oc as [e|res]; [|destruct (ok res)];
        (split; [done|]); (split; [intros ? Hx; left; exact Hx|no_index_in_flight]).
    + unfold json_settled, catch. destruct (body res);
        (split; [done|]); (split; [intros ? Hx; left; exact Hx|no_index_in_flight]).
Qed.

Lemma runs_in_order (s : sys) : runs (λ now, 60000 < now) init s → in_order s.
Proof.
  intros H.
  refine (rtc_ind_r (R:=λ s s', ∃ now, 60000 < now ∧ step now s s') in_order init _ _ s H).
  - split; [done|]. split.
    + intros root [x Hx]. simpl in Hx. by rewrite lookup_empty in Hx.
    + intros t root Ht. by apply elem_of_nil in Ht.
  - intros y z _ (now & Hnow & Hstep) Hy. by apply (step_in_order now y z).
Qed.

(** X14: as long as the clock has passed the first minute after the epoch,
    in every state the event loop can reach each chat call of the log comes
    after an index call for the same root, and each root marked in the map
    has an index call in the log: the backend is never asked about a root it
    was not told to index. *)
Theorem chat_calls_come_after_index_calls (s : sys) :
  runs (λ now, 60000 < now) init s →
  (∀ l1 l2 q root, log s = l1 ++ Fetch (PostChat q root) :: l2 →
                   Fetch (PostIndex root) ∈ l1) ∧
  (∀ root, is_Some (lastIndexed s !! root) → Fetch (PostIndex root) ∈ log s).
Proof.
  intros Hruns. destruct (runs_in_order s Hruns) as (Hlog & Hmap & _). split.
  - intros l1 l2 q root Hl.
    destruct (indexed_first_sound ∅ (log s) l1 l2 q root Hlog Hl) as [H|H]; [|done].
    by apply not_elem_of_empty in H.
  - intros root Hr. apply index_call_in_log. by apply Hmap.
Qed.

Lemma runs_loop2 : runs (λ now, 60000 < now) init loop2.
Proof.
  eapply rtc_l; [exists 70000; split; [lia|apply step_message]|].
  apply rtc_once. exists 70500. split; [lia|].
  apply (step_settle 70500 loop1 (Resolved failure0) (Resolved answer0) [] []
           (ChatIndex 0 msg0 root0 70000)).
  reflexivity.
Qed.

Lemma chat_calls_come_after_index_calls_witness :
  Fetch (PostIndex root0) ∈ log loop2.
Proof.
  apply (proj2 (chat_calls_come_after_index_calls loop2 runs_loop2) root0).
  exists 70000. reflexivity.
Defined.

(** *** Arrivals leave the map as it is *)

Lemma create_frame (h : host) (uri : jsstring) (m : gmap jsstring Z) :
  indexed (onDidCreate h uri m) = m.
Proof. unfold onDidCreate. by destruct (getWorkspaceFolder h uri). Qed.

Lemma arrives_step (now : Z) (s s' : sys) : arrives now s s' → step now s s'.
Proof. intros [h uri|h panel msg]; [apply step_create|apply step_message]. Qed.

Lemma arrives_frame (now : Z) (s s' : sys) :
  arrives now s s' → lastIndexed s' = lastIndexed s ∧ ∀ t, t ∈ pool s → t ∈ pool s'.
Proof.
  intros [h uri|h panel msg]; simpl.
  - split; [apply create_frame|]. intros t Ht. apply elem_of_app. by left.
  - split; [apply start_frame|]. intros t Ht. apply elem_of_app. by left.
Qed.

Lemma arrivals_frame (s s' : sys) :
  arrivals s s' → lastIndexed s' = lastIndexed s ∧ ∀ t, t ∈ pool s → t ∈ pool s'.
Proof.
  induction 1 as [s|s s1 s2 (now & Ha) _ [IHm IHp]]; [done|].
  destruct (arrives_frame now s s1 Ha) as [Hm Hp].
  split; [by rewrite IHm|]. intros t Ht. by apply IHp, Hp.
Qed.

(** X12: the map is written only when an index call settles; new files and
    questions that arrive leave it as it is.  So when a question starts an
    index call, then as long as no call has settled since, that call is
    still in flight, the map is as it was, and every further question for the
    same root starts one more index call: the throttle does not take the
    calls in flight into account. *)
Theorem questions_in_flight_index_again (s s2 : sys) (h1 h2 : host) (now1 now2 : Z)
    (p1 p2 : nat) (msg1 msg2 : message) (root : jsstring) :
  question msg1 ≠ [] → question msg2 ≠ [] →
  api_throws h1 = false → api_throws h2 = false →
  detect_parent h1 = root → detect_parent h2 = root → root ≠ [] →
  shouldReindex (lastIndexed s) root now1 = true → now1 ≤ now2 →
  let s1 := commit s (pool s) (onDidReceiveMessage h1 now1 p1 msg1 (lastIndexed s)) in
  arrivals s1 s2 →
  let r2 := onDidReceiveMessage h2 now2 p2 msg2 (lastIndexed s2) in
  log s1 = log s ++ [PostMessage p1 (Status (id msg1) Indexing); Fetch (PostIndex root)] ∧
  ChatIndex p1 msg1 root now1 ∈ pool s2 ∧
  lastIndexed s2 = lastIndexed s ∧
  actions r2 = [PostMessage p2 (Status (id msg2) Indexing); Fetch (PostIndex root)] ∧
  next r2 = Some (ChatIndex p2 msg2 root now2).
Proof.
  intros Hq1 Hq2 Ha1 Ha2 Hp1 Hp2 Hne Hs Hle s1 Harr r2.
  assert (Hr1 : onDidReceiveMessage h1 now1 p1 msg1 (lastIndexed s) =
                {| indexed := lastIndexed s;
                   actions := [PostMessage p1 (Status (id msg1) Indexing);
                               Fetch (PostIndex root)];
                   next := Some (ChatIndex p1 msg1 root now1) |}).
  { rewrite onDidReceiveMessage_submit by (done || by rewrite Hp1).
    rewrite Hp1. by apply submit_indexes. }
  destruct (arrivals_frame s1 s2 Harr) as [Hm Hpool].
  assert (Hm1 : lastIndexed s1 = lastIndexed s).
  { unfold s1. simpl. apply start_frame. }
  split; [unfold s1; by rewrite Hr1|]. split.
  { apply Hpool. unfold s1. rewrite Hr1. simpl. apply elem_of_app. right. by left. }
  split; [by rewrite Hm|].
  assert (Hs2 : shouldReindex (lastIndexed s2) root now2 = true).
  { rewrite Hm, Hm1. apply shouldReindex_spec. apply shouldReindex_spec in Hs. lia. }
  unfold r2. rewrite onDidReceiveMessage_submit by (done || by rewrite Hp2).
  rewrite Hp2, submit_indexes by done. done.
Qed.

Lemma questions_in_flight_index_again_witness :
  index_calls (actions (onDidReceiveMessage folder_host 1700003600001 1 msg0
                          (lastIndexed loop_b))) = [root0].
Proof.
  destruct (questions_in_flight_index_again loop0 loop_b folder_host folder_host
              1700003600000 1700003600001 0 1 msg0 msg0 root0) as (_ & _ & _ & H & _).
  - vm_compute. congruence.
  - vm_compute. congruence.
  - reflexivity.
  - reflexivity.
  - reflexivity.
  - reflexivity.
  - vm_compute. congruence.
  - reflexivity.
  - lia.
  - apply rtc_once. exists 1700003600000. apply arrives_create.
  - rewrite H. reflexivity.
Defined.

End LoopFacts.

(** ** The two revisions, and the script of the panel *)

Module RevisionFacts.

Import Chat ChatFacts ChatMore ChatLoop.
Local Open Scope Z_scope.

(** X15: the newer revision differs from the older one by its progress
    messages and by the throttle only.  Leaving the progress messages out,
    a question does in the newer revision what it does in the older one
    whenever the index call is made (or no root is found); when the index
    call is skipped it does what the older revision does after an answered
    index call, less that call. *)
Theorem newer_revision_adds_progress_and_throttle (h : host) (now : Z) (panel : nat)
    (msg : message) (oi oc : fetch_outcome) (m : gmap jsstring Z) :
  (question msg = [] ∨ api_throws h = true ∨ detect_parent h = [] ∨
   shouldReindex m (detect_parent h) now = true →
   without_status (actions (submission h now panel msg oi oc m)) =
     Legacy.actions (Legacy.submission h panel msg oi oc)) ∧
  (shouldReindex m (detect_parent h) now = false → (∃ res, oi = Resolved res) →
   without_status (actions (submission h now panel msg oi oc m)) =
     without_index (Legacy.actions (Legacy.submission h panel msg oi oc))).
Proof.
  split.
  - intros Hcase. host_cases h msg; try done.
    destruct Hcase as [?|[?|[?|Hs]]]; try done. rewrite Hs.
    unfold Legacy.and_then, Legacy.settle, Legacy.index_settled, Legacy.chat_settled,
      Legacy.json_settled, Legacy.catch.
    settle_cases oi oc; by rewrite ?Eq.
  - intros Hs [res ->]. host_cases h msg; try done. rewrite Hs.
    unfold Legacy.and_then, Legacy.settle, Legacy.index_settled, Legacy.chat_settled,
      Legacy.json_settled, Legacy.catch.
    unfold and_then, settle, index_settled, chat_settled, json_settled, catch. simpl.
    destruct oc as [?|r]; simpl;
      [|destruct (ok r); simpl; [destruct (body r); simpl|]]; by rewrite ?Eq.
Qed.

Lemma newer_revision_adds_progress_and_throttle_witness :
  without_status (actions (submission folder_host 5000 0 msg0 (Resolved answer0)
                             (Resolved answer0) ∅)) =
    without_index (Legacy.actions (Legacy.submission folder_host 0 msg0 (Resolved answer0)
                                      (Resolved answer0))).
Proof.
  apply (proj2 (newer_revision_adds_progress_and_throttle folder_host 5000 0 msg0
                  (Resolved answer0) (Resolved answer0) ∅)).
  - reflexivity.
  - by exists answer0.
Defined.

End RevisionFacts.

Module WebviewFacts.

Import Chat ChatFacts ChatMore Webview.
Local Open Scope Z_scope.

Lemma trim_blank (s : jsstring) : forallb is_space s = true → trim s = [].
Proof.
  intros H. unfold trim.
  assert (Hd : drop_spaces s = []).
  { induction s as [|c s IH]; simpl in *; [done|].
    apply andb_true_iff in H as [-> Hs]. by apply IH. }
  by rewrite Hd.
Qed.

Lemma trim_not_blank (s : jsstring) : forallb is_space s = false → trim s ≠ [].
Proof.
  intros H Ht. unfold trim in Ht.
  apply (f_equal (@rev N)) in Ht. rewrite rev_involutive in Ht. simpl in Ht.
  assert (Hd : ∀ u : jsstring, drop_spaces u = [] → forallb is_space u = true).
  { clear. induction u as [|c u IH]; simpl; [done|].
    destruct (is_space c); [done|done]. }
  apply Hd in Ht. rewrite forallb_forall in Ht.
  assert (Hall : forallb is_space (drop_spaces s) = true).
  { apply forallb_forall. intros x Hx. apply Ht. by apply in_rev in Hx. }
  destruct (drop_spaces s) as [|c t] eqn:Hs.
  - apply Hd in Hs. congruence.
  - simpl in Hall. rewrite (drop_spaces_head s c t Hs) in Hall. done.
Qed.

(** X16: the panel sends a question only when the text area holds something
    other than blanks; the question sent is the trimmed text, its id is the
    time of the click, the text area is emptied and one reply is appended;
    the extension then posts exactly one final answer for that id, whatever
    the editor shows and however the calls settle.  A text area of blanks
    sends nothing and changes nothing. *)
Theorem asked_questions_are_trimmed_and_answered (v : view) (now : Z) :
  (forallb is_space (textarea v) = true → ask now v = (v, None)) ∧
  (forallb is_space (textarea v) = false →
   let msg := {| id := now; question := trim (textarea v) |} in
   ask now v =
     ({| textarea := []; appended := appended v ++ [(trim (textarea v), now)] |},
      Some msg) ∧
   question msg ≠ [] ∧ trimmed (question msg) ∧
   ∀ (h : host) (clock : Z) (panel : nat) (oi oc : fetch_outcome) (m : gmap jsstring Z),
     next (submission h clock panel msg oi oc m) = None ∧
     ∃ a, answers (actions (submission h clock panel msg oi oc m)) = [(panel, now, a)]).
Proof.
  split.
  - intros H. unfold ask. by rewrite trim_blank.
  - intros H. cbn zeta. pose proof (trim_not_blank _ H) as Hne.
    split; [|split; [done|split; [apply trim_trimmed|]]].
    + unfold ask. by destruct (trim (textarea v)).
    + intros h clock panel oi oc m.
      destruct (one_answer h clock panel {| id := now; question := trim (textarea v) |}
                  oi oc m Hne) as (H1 & H2 & _). done.
Qed.

Lemma asked_questions_are_trimmed_and_answered_witness :
  ask 7 {| textarea := lit "  why "; appended := [] |} =
    ({| textarea := []; appended := [(lit "why", 7)] |},
     Some {| id := 7; question := lit "why" |}) ∧
  ask 7 {| textarea := lit "   "; appended := [] |} =
    ({| textarea := lit "   "; appended := [] |}, None).
Proof.
  split.
  - apply (proj2 (asked_questions_are_trimmed_and_answered
                    {| textarea := lit "  why "; appended := [] |} 7)).
    reflexivity.
  - apply (proj1 (asked_questions_are_trimmed_and_answered
                    {| textarea := lit "   "; appended := [] |} 7)).
    reflexivity.
Defined.

End WebviewFacts.
